(** * Greenlight: the data layer of the API, embedded in Rocq

    The development follows the Go sources of [internal/data] (movies,
    tokens, users, filters, models) and the limiter configuration of
    [cmd/api/main.go].  Go methods become functions in a state monad over a
    [World] that holds the PostgreSQL tables the queries touch, the wall
    clock read by [time.Now], the entropy consumed by [crypto/rand] and the
    list of SQL statements sent to the server.  A pointer receiver or a
    pointer argument that the method writes through is returned as a value. *)

From Stdlib Require Import ZArith String List Ascii Lia QArith Qcanon.
From stdpp Require Import base numbers option gmap strings list fin_maps.

Local Open Scope string_scope.
Local Open Scope Z_scope.

(** ** Machine integers *)

Definition max_int32 : Z := 2147483647.
Definition min_int32 : Z := -2147483648.
Definition in_int32 (z : Z) : Prop := min_int32 <= z <= max_int32.

(** ** Errors

    [ErrRecordNotFound] and [ErrEditConflict] are the two sentinel errors
    declared in models.go; [sql_ErrNoRows] is [database/sql]'s sentinel;
    [pq_Error] is an error reported by the server, with its SQLSTATE code. *)

Inductive error : Type :=
| ErrRecordNotFound
| ErrEditConflict
| sql_ErrNoRows
| pq_Error (code : string).

#[global] Instance error_eq_dec : EqDecision error.
Proof. solve_decision. Defined.

(** [errors.Is err target] for sentinel errors: identity of the value. *)
Definition errors_Is (err target : error) : bool := bool_decide (err = target).

(** SQLSTATE 22003, numeric_value_out_of_range: what [version + 1] raises on
    an [integer] column that already holds the largest 32-bit value. *)
Definition integer_out_of_range : error := pq_Error "22003".

(** ** The tables

    A row of [movies] without its key; the table maps [id] to the row. *)

Record MovieRow : Type := {
  row_created_at : Z;
  row_title : string;
  row_year : Z;
  row_runtime : Z;
  row_genres : list string;
  row_version : Z
}.

(** A row of [tokens]: the columns of the INSERT in [TokenModel.Insert]. *)
Record TokenRow : Type := {
  row_hash : list Byte.byte;
  row_user_id : Z;
  row_expiry : Z;
  row_scope : string
}.

Record DB : Type := {
  movies : gmap Z MovieRow;
  movies_id_seq : Z;
  tokens : list TokenRow
}.

(** The statements the data layer sends, with their placeholder values. *)
Inductive Stmt : Type :=
| SQL_InsertMovie (title : string) (year runtime : Z) (genres : list string)
| SQL_SelectMovie (id : Z)
| SQL_UpdateMovie (title : string) (year runtime : Z) (genres : list string)
    (id version : Z)
| SQL_DeleteMovie (id : Z)
| SQL_InsertToken (hash : list Byte.byte) (user_id expiry : Z) (scope : string)
| SQL_DeleteTokens (scope : string) (user_id : Z).

(** ** The world and its monad *)

Record World : Type := {
  db : DB;
  clock : Z;
  entropy : nat -> Byte.byte;
  drawn : nat;
  sent : list Stmt
}.

Definition M (A : Type) : Type := World -> A * World.

#[global] Instance M_ret : MRet M := fun A a w => (a, w).
#[global] Instance M_bind : MBind M :=
  fun A B f m w => let '(a, w') := m w in f a w'.

Definition get_db : M DB := fun w => (db w, w).

Definition put_db (d : DB) : M unit := fun w =>
  (tt, {| db := d; clock := clock w; entropy := entropy w;
          drawn := drawn w; sent := sent w |}).

(** Every round trip to the server is recorded. *)
Definition send (q : Stmt) : M unit := fun w =>
  (tt, {| db := db w; clock := clock w; entropy := entropy w;
          drawn := drawn w; sent := sent w ++ [q] |}).

(** [time.Now()], in nanoseconds. *)
Definition time_Now : M Z := fun w => (clock w, w).

(** ** movies.go *)

Record Movie : Type := {
  Movie_ID : Z;
  Movie_CreatedAt : Z;
  Movie_Title : string;
  Movie_Year : Z;
  Movie_Runtime : Z;
  Movie_Genres : list string;
  Movie_Version : Z
}.

Definition with_movies (m : gmap Z MovieRow) (d : DB) : DB :=
  {| movies := m; movies_id_seq := movies_id_seq d; tokens := tokens d |}.

(** INSERT INTO movies (title, year, runtime, genres) VALUES ($1, $2, $3, $4)
    RETURNING id, created_at, version.
    The key comes from the table's sequence, [created_at] is the server's
    clock and [version] takes its default 1. *)
Definition QueryRow_InsertMovie (title : string) (year runtime : Z)
    (genres : list string) : M (error + (Z * Z * Z)) :=
  _ ← send (SQL_InsertMovie title year runtime genres);
  d ← get_db;
  now ← time_Now;
  let id := movies_id_seq d in
  let row := {| row_created_at := now; row_title := title; row_year := year;
                row_runtime := runtime; row_genres := genres;
                row_version := 1 |} in
  _ ← put_db {| movies := <[id := row]> (movies d);
                movies_id_seq := id + 1; tokens := tokens d |};
  mret (inr (id, now, 1)).

(** SELECT id, created_at, title, year, runtime, genres, version
    FROM movies WHERE id = $1. *)
Definition QueryRow_SelectMovie (id : Z) : M (error + (Z * MovieRow)) :=
  _ ← send (SQL_SelectMovie id);
  d ← get_db;
  match movies d !! id with
  | Some row => mret (inr (id, row))
  | None => mret (inl sql_ErrNoRows)
  end.

(** UPDATE movies
    SET title = $1, year = $2, runtime = $3, genres = $4, version = version + 1
    WHERE id = $5 AND version = $6
    RETURNING version.
    No row satisfying the condition gives [sql.ErrNoRows] at Scan; the
    [integer] addition raises 22003 past the 32-bit range and the statement
    then changes nothing. *)
Definition QueryRow_UpdateMovie (title : string) (year runtime : Z)
    (genres : list string) (id version : Z) : M (error + Z) :=
  _ ← send (SQL_UpdateMovie title year runtime genres id version);
  d ← get_db;
  match movies d !! id with
  | Some row =>
      if row_version row =? version then
        if row_version row + 1 <=? max_int32 then
          let row' := {| row_created_at := row_created_at row;
                         row_title := title; row_year := year;
                         row_runtime := runtime; row_genres := genres;
                         row_version := row_version row + 1 |} in
          _ ← put_db (with_movies (<[id := row']> (movies d)) d);
          mret (inr (row_version row + 1))
        else mret (inl integer_out_of_range)
      else mret (inl sql_ErrNoRows)
  | None => mret (inl sql_ErrNoRows)
  end.

(** The [sql.Result] of an Exec: the number of rows the statement touched. *)
Record sql_Result : Type := { affected : Z }.

Definition RowsAffected (r : sql_Result) : error + Z := inr (affected r).

(** DELETE FROM movies WHERE id = $1. *)
Definition Exec_DeleteMovie (id : Z) : M (error + sql_Result) :=
  _ ← send (SQL_DeleteMovie id);
  d ← get_db;
  match movies d !! id with
  | Some _ =>
      _ ← put_db (with_movies (delete id (movies d)) d);
      mret (inr {| affected := 1 |})
  | None => mret (inr {| affected := 0 |})
  end.

(** [func (m MovieModel) Insert(movie)]; the struct behind the pointer is
    returned next to the error. *)
Definition MovieModel_Insert (movie : Movie) : M (Movie * option error) :=
  res ← QueryRow_InsertMovie (Movie_Title movie) (Movie_Year movie)
          (Movie_Runtime movie) (Movie_Genres movie);
  match res with
  | inl err => mret (movie, Some err)
  | inr (id, created_at, version) =>
      mret ({| Movie_ID := id; Movie_CreatedAt := created_at;
               Movie_Title := Movie_Title movie;
               Movie_Year := Movie_Year movie;
               Movie_Runtime := Movie_Runtime movie;
               Movie_Genres := Movie_Genres movie;
               Movie_Version := version |}, None)
  end.

(** [func (m MovieModel) Get(id int64)], returning the movie found (a nil
    pointer is [None]) and the error. *)
Definition MovieModel_Get (id : Z) : M (option Movie * option error) :=
  if id <? 1 then mret (None, Some ErrRecordNotFound)
  else
    res ← QueryRow_SelectMovie id;
    match res with
    | inl err =>
        if errors_Is err sql_ErrNoRows
        then mret (None, Some ErrRecordNotFound)
        else mret (None, Some err)
    | inr (id', row) =>
        mret (Some {| Movie_ID := id'; Movie_CreatedAt := row_created_at row;
                      Movie_Title := row_title row;
                      Movie_Year := row_year row;
                      Movie_Runtime := row_runtime row;
                      Movie_Genres := row_genres row;
                      Movie_Version := row_version row |}, None)
    end.

Definition set_Movie_Version (v : Z) (movie : Movie) : Movie :=
  {| Movie_ID := Movie_ID movie; Movie_CreatedAt := Movie_CreatedAt movie;
     Movie_Title := Movie_Title movie; Movie_Year := Movie_Year movie;
     Movie_Runtime := Movie_Runtime movie; Movie_Genres := Movie_Genres movie;
     Movie_Version := v |}.

(** [func (m MovieModel) Update(movie)]; the struct behind the pointer is
    returned next to the error. *)
Definition MovieModel_Update (movie : Movie) : M (Movie * option error) :=
  res ← QueryRow_UpdateMovie (Movie_Title movie) (Movie_Year movie)
          (Movie_Runtime movie) (Movie_Genres movie)
          (Movie_ID movie) (Movie_Version movie);
  match res with
  | inl err =>
      if errors_Is err sql_ErrNoRows
      then mret (movie, Some ErrEditConflict)
      else mret (movie, Some err)
  | inr version => mret (set_Movie_Version version movie, None)
  end.

(** [func (m MovieModel) Delete(id int64) error] *)
Definition MovieModel_Delete (id : Z) : M (option error) :=
  if id <? 1 then mret (Some ErrRecordNotFound)
  else
    res ← Exec_DeleteMovie id;
    match res with
    | inl err => mret (Some err)
    | inr result =>
        match RowsAffected result with
        | inl err => mret (Some err)
        | inr rowsAffected =>
            if rowsAffected =? 0 then mret (Some ErrRecordNotFound)
            else mret None
        end
    end.

(** ** internal/validator

    Modelled from the spec: the package [internal/validator] ([Validator],
    [Check], [Valid], [PermittedValue]) is imported by the data layer but its
    file is not among the sources.  The spec describes validation failures as
    field-level, collected rather than fail-fast, and returned together as a
    field-to-message mapping, and a safelist as an explicit allow-list of
    accepted values.  A validator is therefore the mapping from field to
    message; a failed check records its message under its field unless the
    field already has one, and never removes an entry. *)

Record Validator : Type := { Errors : gmap string string }.

Definition Validator_New : Validator := {| Errors := ∅ |}.

Definition Valid (v : Validator) : bool := bool_decide (Errors v = ∅).

Definition AddError (key message : string) (v : Validator) : Validator :=
  match Errors v !! key with
  | Some _ => v
  | None => {| Errors := <[key := message]> (Errors v) |}
  end.

Definition Check (ok : bool) (key message : string) (v : Validator)
  : Validator :=
  if ok then v else AddError key message v.

(** Modelled from the spec: [validator.PermittedValue(value, permitted...)],
    membership of the value in the allow-list. *)
Definition PermittedValue (value : string) (permittedValues : list string)
  : bool :=
  existsb (String.eqb value) permittedValues.

(** ** crypto/rand

    [rand.Read] fills a buffer from the system's entropy and does not fail;
    [rand.Text] draws 26 bytes and maps each one into the base32 alphabet. *)

Definition base32alphabet : string := "ABCDEFGHIJKLMNOPQRSTUVWXYZ234567".

Definition rand_Read (n : nat) : M (list Byte.byte) := fun w =>
  (map (fun i => entropy w (drawn w + i)%nat) (seq 0 n),
   {| db := db w; clock := clock w; entropy := entropy w;
      drawn := (drawn w + n)%nat; sent := sent w |}).

Definition byte_at (s : string) (i : nat) : ascii :=
  match String.get i s with
  | Some c => c
  | None => Ascii.zero
  end.

Definition rand_Text : M string :=
  src ← rand_Read 26;
  mret (string_of_list_ascii
          (map (fun b => byte_at base32alphabet
                           (N.to_nat (Byte.to_N b) mod 32)) src)).

(** ** tokens.go *)

Definition ScopeActivation : string := "activation".
Definition ScopeAuthentication : string := "authentication".

Record Token : Type := {
  Token_Plaintext : string;
  Token_Hash : list Byte.byte;
  Token_UserID : Z;
  Token_Expiry : Z;
  Token_Scope : string
}.

Definition with_tokens (t : list TokenRow) (d : DB) : DB :=
  {| movies := movies d; movies_id_seq := movies_id_seq d; tokens := t |}.

(** INSERT INTO tokens (hash, user_id, expiry, scope) VALUES ($1, $2, $3, $4). *)
Definition Exec_InsertToken (hash : list Byte.byte) (user_id expiry : Z)
    (scope : string) : M (error + sql_Result) :=
  _ ← send (SQL_InsertToken hash user_id expiry scope);
  d ← get_db;
  _ ← put_db (with_tokens
                (tokens d ++ [{| row_hash := hash; row_user_id := user_id;
                                 row_expiry := expiry; row_scope := scope |}])
                d);
  mret (inr {| affected := 1 |}).

(** The WHERE clause of the DELETE below. *)
Definition token_of (scope : string) (user_id : Z) (r : TokenRow) : bool :=
  String.eqb (row_scope r) scope && (row_user_id r =? user_id).

(** DELETE FROM tokens WHERE scope = $1 AND user_id = $2. *)
Definition Exec_DeleteTokens (scope : string) (user_id : Z)
  : M (error + sql_Result) :=
  _ ← send (SQL_DeleteTokens scope user_id);
  d ← get_db;
  let gone := List.filter (token_of scope user_id) (tokens d) in
  let kept := List.filter (fun r => negb (token_of scope user_id r))
                (tokens d) in
  _ ← put_db (with_tokens kept d);
  mret (inr {| affected := Z.of_nat (length gone) |}).

Definition error_of {A : Type} (res : error + A) : option error :=
  match res with
  | inl err => Some err
  | inr _ => None
  end.

Section Tokens.

(** [sha256.Sum256], from the bytes of the message to the 32 bytes of the
    digest. *)
Variable Sum256 : list Byte.byte -> list Byte.byte.

(** [func generateToken(userID int64, ttl time.Duration, scope string)] *)
Definition generateToken (userID ttl : Z) (scope : string) : M Token :=
  text ← rand_Text;
  now ← time_Now;
  let token := {| Token_Plaintext := text; Token_Hash := [];
                  Token_UserID := userID; Token_Expiry := now + ttl;
                  Token_Scope := scope |} in
  let hash := Sum256 (list_byte_of_string (Token_Plaintext token)) in
  mret {| Token_Plaintext := Token_Plaintext token; Token_Hash := hash;
          Token_UserID := Token_UserID token;
          Token_Expiry := Token_Expiry token;
          Token_Scope := Token_Scope token |}.

(** [func (m TokenModel) Insert(token)] *)
Definition TokenModel_Insert (token : Token) : M (option error) :=
  res ← Exec_InsertToken (Token_Hash token) (Token_UserID token)
          (Token_Expiry token) (Token_Scope token);
  mret (error_of res).

(** [func (m TokenModel) New(userID int64, ttl time.Duration, scope string)] *)
Definition TokenModel_New (userID ttl : Z) (scope : string)
  : M (Token * option error) :=
  token ← generateToken userID ttl scope;
  err ← TokenModel_Insert token;
  mret (token, err).

End Tokens.

(** [func ValidateTokenPlaintext(v, tokenPlaintext string)] *)
Definition ValidateTokenPlaintext (tokenPlaintext : string) (v : Validator)
  : Validator :=
  let v := Check (negb (String.eqb tokenPlaintext "")) "token"
             "must be provided" v in
  Check (String.length tokenPlaintext =? 26)%nat "token"
    "must be 26 bytes long" v.

(** [func (m TokenModel) DeleteAllForUser(scope string, userID int64) error] *)
Definition TokenModel_DeleteAllForUser (scope : string) (userID : Z)
  : M (option error) :=
  res ← Exec_DeleteTokens scope userID;
  mret (error_of res).

(** ** filters.go *)

Record Filters : Type := {
  Page : Z;
  PageSize : Z;
  Sort : string;
  SortSafeList : list string
}.

(** [strings.HasPrefix] and [strings.TrimPrefix]. *)
Definition HasPrefix (s prefix : string) : bool := String.prefix prefix s.

Definition TrimPrefix (s prefix : string) : string :=
  if HasPrefix s prefix
  then String.substring (String.length prefix)
         (String.length s - String.length prefix) s
  else s.

(** The loop of [sortColumn] over the safelist; falling off its end is the
    panic, carried with its message on the left. *)
Fixpoint sortColumn_range (sort : string) (safelist : list string)
  : string + string :=
  match safelist with
  | [] => inl ("unsafe sort parameter: " ++ sort)%string
  | safeValue :: rest =>
      if String.eqb sort safeValue then inr (TrimPrefix sort "-")
      else sortColumn_range sort rest
  end.

(** [func (f Filters) sortColumn() string] *)
Definition sortColumn (f : Filters) : string + string :=
  sortColumn_range (Sort f) (SortSafeList f).

(** [func (f Filters) sortDirection() string] *)
Definition sortDirection (f : Filters) : string :=
  if HasPrefix (Sort f) "-" then "DESC" else "ASC".

(** [func ValidateFilters(v, f Filters)] *)
Definition ValidateFilters (f : Filters) (v : Validator) : Validator :=
  let v := Check (0 <? Page f) "page" "must be greater than zero" v in
  let v := Check (Page f <=? 10000000) "page"
             "must be  maximum of 10 million" v in
  let v := Check (0 <? PageSize f) "page_size" "must be greater than zero" v in
  let v := Check (PageSize f <=? 100) "page_size"
             "must be a maximum of 100" v in
  Check (PermittedValue (Sort f) (SortSafeList f)) "sort"
    "invalid sort value" v.

(** ** users.go *)

(** [type password struct { plaintext *string; hash []byte }] *)
Record password : Type := {
  plaintext : option string;
  hash : list Byte.byte
}.

Record User : Type := {
  User_ID : Z;
  User_CreatedAt : Z;
  User_Name : string;
  User_Email : string;
  User_Password : password;
  User_Activated : bool;
  User_Version : Z
}.

Section Password.

(** [bcrypt.GenerateFromPassword(password, cost)]. *)
Variable GenerateFromPassword : list Byte.byte -> Z -> error + list Byte.byte.

(** [func (p *password) Set(plaintextPassword string) error]; the struct
    behind the receiver is returned next to the error. *)
Definition password_Set (plaintextPassword : string) (p : password)
  : password * option error :=
  match GenerateFromPassword (list_byte_of_string plaintextPassword) 12 with
  | inl err => (p, Some err)
  | inr h => ({| plaintext := Some plaintextPassword; hash := h |}, None)
  end.

(** The spec's reading of [Set], for comparison with the code: the work
    factor is a configuration value handed to the hash. *)
Definition Set_with_work_factor (workFactor : Z) (plaintextPassword : string)
    (p : password) : password * option error :=
  match GenerateFromPassword (list_byte_of_string plaintextPassword)
          workFactor with
  | inl err => (p, Some err)
  | inr h => ({| plaintext := Some plaintextPassword; hash := h |}, None)
  end.

End Password.

(** ** encoding/json on the [User] struct

    A struct is encoded as an object with one member per exported field, in
    declaration order, under the name given by the field's [json] tag; a
    field tagged ["-"] is left out. *)

#[local] Unset Elimination Schemes.

Inductive JSON : Type :=
| JNull
| JBool (b : bool)
| JNumber (n : Z)
| JString (s : string)
| JObject (members : list (string * JSON)).

#[local] Set Elimination Schemes.

Record Field : Type := {
  field_name : string;
  field_tag : string;
  field_value : JSON
}.

(** Go exports an identifier that starts with an upper-case letter. *)
Definition exported (name : string) : bool :=
  match name with
  | String c _ => (65 <=? nat_of_ascii c)%nat && (nat_of_ascii c <=? 90)%nat
  | EmptyString => false
  end.

Definition member_of (f : Field) : list (string * JSON) :=
  if negb (exported (field_name f)) then []
  else if String.eqb (field_tag f) "-" then []
  else if String.eqb (field_tag f) "" then [(field_name f, field_value f)]
  else [(field_tag f, field_value f)].

Definition Marshal_struct (fields : list Field) : JSON :=
  JObject (flat_map member_of fields).

Definition JBytes (o : option (list Byte.byte)) : JSON :=
  match o with
  | Some bs => JString (string_of_list_byte bs)
  | None => JNull
  end.

Definition JPointer (o : option string) : JSON :=
  match o with
  | Some s => JString s
  | None => JNull
  end.

(** The fields of [password], both unexported and without tags. *)
Definition password_fields (p : password) : list Field :=
  [ {| field_name := "plaintext"; field_tag := "";
       field_value := JPointer (plaintext p) |};
    {| field_name := "hash"; field_tag := "";
       field_value := JBytes (Some (hash p)) |} ].

Section UserJSON.

(** [time.Time]'s MarshalJSON: the RFC 3339 text of the instant. *)
Variable Time_MarshalJSON : Z -> string.

(** The fields of [User] with the struct tags of the source. *)
Definition User_fields (u : User) : list Field :=
  [ {| field_name := "ID"; field_tag := "id";
       field_value := JNumber (User_ID u) |};
    {| field_name := "CreatedAt"; field_tag := "created_at";
       field_value := JString (Time_MarshalJSON (User_CreatedAt u)) |};
    {| field_name := "Name"; field_tag := "name";
       field_value := JString (User_Name u) |};
    {| field_name := "Email"; field_tag := "email";
       field_value := JString (User_Email u) |};
    {| field_name := "Password"; field_tag := "-";
       field_value := Marshal_struct (password_fields (User_Password u)) |};
    {| field_name := "Activated"; field_tag := "activated";
       field_value := JBool (User_Activated u) |};
    {| field_name := "Version"; field_tag := "-";
       field_value := JNumber (User_Version u) |} ].

(** [json.Marshal(user)]. *)
Definition User_MarshalJSON (u : User) : JSON :=
  Marshal_struct (User_fields u).

End UserJSON.

(** The names of the members of an encoded object. *)
Definition keys (j : JSON) : list string :=
  match j with
  | JObject members => map fst members
  | _ => []
  end.

(** ** The rate limiter

    The [limiter] settings of [config] and their flag defaults are in
    main.go: [-limiter-rps] 2, [-limiter-burst] 4, [-limiter-enabled] true. *)

Record limiter_config : Type := {
  rps : Qc;
  burst : Z;
  enabled : bool
}.

Definition limiter_defaults : limiter_config :=
  {| rps := Qc_of_Z 2; burst := 4; enabled := true |}.

(** Modelled from the spec: the [rateLimit] middleware that [routes] installs
    is not among the sources.  The bucket and [Admit] follow section 4.3 of
    the spec: a bucket per client key, created on the key's first request
    with [burst] tokens; an admission check adds [elapsed * rps] tokens
    capped at [burst], sets [lastRefill] to now, and admits, consuming one
    token, when at least one is available.  Token counts are exact
    rationals, instants are nanoseconds. *)
Record RateBucket : Type := {
  bucket_tokens : Qc;
  lastRefill : Z
}.

Definition Qc_min (a b : Qc) : Qc := if bool_decide (a ≤ b)%Qc then a else b.

Definition seconds (nanos : Z) : Qc :=
  (Qc_of_Z nanos / Qc_of_Z 1000000000)%Qc.

Definition refill (cfg : limiter_config) (now : Z) (b : RateBucket) : Qc :=
  Qc_min (bucket_tokens b + seconds (now - lastRefill b) * rps cfg)%Qc
         (Qc_of_Z (burst cfg)).

Definition fresh_bucket (cfg : limiter_config) (now : Z) : RateBucket :=
  {| bucket_tokens := Qc_of_Z (burst cfg); lastRefill := now |}.

Definition Admit (cfg : limiter_config) (clientKey : string) (now : Z)
    (buckets : gmap string RateBucket) : bool * gmap string RateBucket :=
  if negb (enabled cfg) then (true, buckets)
  else
    let b := default (fresh_bucket cfg now) (buckets !! clientKey) in
    let available := refill cfg now b in
    if bool_decide (1 ≤ available)%Qc
    then (true, <[clientKey := {| bucket_tokens := (available - 1)%Qc;
                                  lastRefill := now |}]> buckets)
    else (false, <[clientKey := {| bucket_tokens := available;
                                   lastRefill := now |}]> buckets).

(** A sequence of requests of one client, each at its own instant; the
    verdicts come back in order. *)
Fixpoint Admit_all (cfg : limiter_config) (clientKey : string)
    (instants : list Z) (buckets : gmap string RateBucket)
  : list bool * gmap string RateBucket :=
  match instants with
  | [] => ([], buckets)
  | now :: rest =>
      let '(ok, buckets') := Admit cfg clientKey now buckets in
      let '(oks, buckets'') := Admit_all cfg clientKey rest buckets' in
      (ok :: oks, buckets'')
  end.

(** ** Vocabulary of the statements below *)

(** The row the WHERE clause of the UPDATE selects: [id] is the primary key,
    so there is at most one. *)
Definition matching_row (movie : Movie) (d : DB) : option MovieRow :=
  match movies d !! Movie_ID movie with
  | Some row => if row_version row =? Movie_Version movie then Some row
                else None
  | None => None
  end.

(** The row after the SET clause of the UPDATE. *)
Definition updated_row (movie : Movie) (row : MovieRow) : MovieRow :=
  {| row_created_at := row_created_at row;
     row_title := Movie_Title movie; row_year := Movie_Year movie;
     row_runtime := Movie_Runtime movie; row_genres := Movie_Genres movie;
     row_version := Movie_Version movie + 1 |}.

Definition update_stmt (movie : Movie) : Stmt :=
  SQL_UpdateMovie (Movie_Title movie) (Movie_Year movie)
    (Movie_Runtime movie) (Movie_Genres movie)
    (Movie_ID movie) (Movie_Version movie).

(** The keys of [movies] come from its sequence, which starts at 1. *)
Definition generated_ids (d : DB) : Prop :=
  1 <= movies_id_seq d /\
  forall id row, movies d !! id = Some row -> 1 <= id < movies_id_seq d.

(** Every stored version fits the [integer] column. *)
Definition versions_in_int32 (d : DB) : Prop :=
  forall id row, movies d !! id = Some row -> in_int32 (row_version row).

Definition empty_DB : DB :=
  {| movies := ∅; movies_id_seq := 1; tokens := [] |}.

(** ** Sample data *)

Definition no_entropy : nat -> Byte.byte := fun _ => Byte.x00.

Definition world_of (d : DB) : World :=
  {| db := d; clock := 1700000000000000000; entropy := no_entropy;
     drawn := 0; sent := [] |}.

Definition casablanca (version : Z) : MovieRow :=
  {| row_created_at := 1600000000000000000; row_title := "Casablanca";
     row_year := 1942; row_runtime := 102;
     row_genres := ["drama"; "romance"]; row_version := version |}.

Definition one_movie (version : Z) : DB :=
  {| movies := {[ 1 := casablanca version ]}; movies_id_seq := 2;
     tokens := [] |}.

(** The caller's copy of movie 1 at the given version, with a new title. *)
Definition edit (title : string) (version : Z) : Movie :=
  {| Movie_ID := 1; Movie_CreatedAt := 1600000000000000000;
     Movie_Title := title; Movie_Year := 1942; Movie_Runtime := 102;
     Movie_Genres := ["drama"; "romance"]; Movie_Version := version |}.

(** The text without one leading hyphen. *)
Definition strip_hyphen (s : string) : string :=
  match s with
  | String "-"%char rest => rest
  | _ => s
  end.

Definition movie_filters (sort : string) : Filters :=
  {| Page := 1; PageSize := 20; Sort := sort;
     SortSafeList := ["id"; "title"; "year"; "runtime";
                      "-id"; "-title"; "-year"; "-runtime"] |}.

(** A stand-in for bcrypt that leaves the cost readable in its output, as
    the cost field of a bcrypt hash does: as many bytes as the cost. *)
Definition cost_marker (pw : list Byte.byte) (cost : Z)
  : error + list Byte.byte :=
  inr (repeat Byte.x24 (Z.to_nat cost)).

Definition no_password : password := {| plaintext := None; hash := [] |}.

Definition alice (pw : password) (version : Z) : User :=
  {| User_ID := 7; User_CreatedAt := 1600000000000000000;
     User_Name := "Alice"; User_Email := "alice@example.com";
     User_Password := pw; User_Activated := true; User_Version := version |}.

(** A stand-in for the RFC 3339 text of an instant. *)
Definition instant_text (t : Z) : string :=
  if t =? 1600000000000000000 then "2020-09-13T12:26:40Z" else "".

(** The verdicts of a sequence of admission checks as a function of the
    client's bucket alone ([None]: the client has none yet). *)
Fixpoint verdicts (cfg : limiter_config) (bucket : option RateBucket)
    (instants : list Z) : list bool :=
  match instants with
  | [] => []
  | now :: rest =>
      let available := refill cfg now (default (fresh_bucket cfg now) bucket) in
      let ok := bool_decide (1 ≤ available)%Qc in
      ok :: verdicts cfg
              (Some {| bucket_tokens :=
                         if ok then (available - 1)%Qc else available;
                       lastRefill := now |}) rest
  end.

Definition half_second : Z := 500000000.

(** Entropy that counts 0, 1, 2, ... *)
Definition counting (i : nat) : Byte.byte :=
  default Byte.x00 (Byte.of_nat i).

Definition counting_world : World :=
  {| db := empty_DB; clock := 1700000000000000000; entropy := counting;
     drawn := 0; sent := [] |}.

(** [24 * time.Hour], in nanoseconds. *)
Definition one_day : Z := 24 * 3600 * 1000000000.

(** ** Further parts of the sources *)

(** Go's [int], [bits] wide (32 or 64 by platform), with its wrap-around. *)
Definition wrap_int (bits : Z) (z : Z) : Z :=
  (z + 2 ^ (bits - 1)) mod 2 ^ bits - 2 ^ (bits - 1).

(** [func (f Filters) limit() int] *)
Definition limit (f : Filters) : Z := PageSize f.

(** [func (f Filters) offset() int] *)
Definition offset (bits : Z) (f : Filters) : Z :=
  wrap_int bits (wrap_int bits (Page f - 1) * PageSize f).

(** [func ValidatePasswordPlaintext(v, password string)] *)
Definition ValidatePasswordPlaintext (password : string) (v : Validator)
  : Validator :=
  let v := Check (negb (String.eqb password "")) "password"
             "must be provided" v in
  let v := Check (8 <=? String.length password)%nat "password"
             "must be at least 8 bytes long" v in
  Check (String.length password <=? 72)%nat "password"
    "must not be more than 72 bytes long" v.

(** The errors of [golang.org/x/crypto/bcrypt] that [Matches] separates:
    its mismatch sentinel and any other. *)
Inductive bcrypt_error : Type :=
| bcrypt_ErrMismatchedHashAndPassword
| bcrypt_failure (message : string).

#[global] Instance bcrypt_error_eq_dec : EqDecision bcrypt_error.
Proof. solve_decision. Defined.

Section Matches.

(** [bcrypt.CompareHashAndPassword(hashedPassword, password)]; [None] is the
    nil error. *)
Variable CompareHashAndPassword :
  list Byte.byte -> list Byte.byte -> option bcrypt_error.


End Matches.

Section ValidateMovie.

(** [validator.Unique], which is not among the sources, and
    [time.Time.Year]. *)
Variable Unique : list string -> bool.
Variable Year : Z -> Z.

(** [func ValidateMovie(v, movie)].  It reads the clock for the current
    year, converted to int32.  A Go slice can be nil, which the list of its
    elements does not tell: [genres_nil] says whether [movie.Genres] is. *)
Definition ValidateMovie (genres_nil : bool) (movie : Movie) (v : Validator)
  : M Validator :=
  let v := Check (negb (String.eqb (Movie_Title movie) "")) "title"
             "must be provided" v in
  let v := Check (String.length (Movie_Title movie) <=? 500)%nat "title"
             "must not be more than 500 bytes long" v in
  let v := Check (negb (Movie_Year movie =? 0)) "year" "must be provided" v in
  let v := Check (1888 <=? Movie_Year movie) "year"
             "must be greater than 1888" v in
  now ← time_Now;
  let v := Check (Movie_Year movie <=? wrap_int 32 (Year now)) "year"
             "must not be in the future" v in
  let v := Check (negb (Movie_Runtime movie =? 0)) "runtime"
             "must be provided" v in
  let v := Check (0 <? Movie_Runtime movie) "runtime"
             "must be a positive integer" v in
  let v := Check (negb genres_nil) "genres" "must be provided" v in
  let v := Check (1 <=? length (Movie_Genres movie))%nat "genres"
             "must contain at least 1 genre" v in
  let v := Check (length (Movie_Genres movie) <=? 5)%nat "genres"
             "must not contain more than 5 genres" v in
  mret (Check (Unique (Movie_Genres movie)) "genres"
          "must not contain duplicate values" v).

End ValidateMovie.

Section TokenJSON.

Variable Time_MarshalJSON : Z -> string.

(** The fields of [Token] with the struct tags of the source. *)
Definition Token_fields (t : Token) : list Field :=
  [ {| field_name := "Plaintext"; field_tag := "token";
       field_value := JString (Token_Plaintext t) |};
    {| field_name := "Hash"; field_tag := "-";
       field_value := JBytes (Some (Token_Hash t)) |};
    {| field_name := "UserID"; field_tag := "-";
       field_value := JNumber (Token_UserID t) |};
    {| field_name := "Expiry"; field_tag := "expiry";
       field_value := JString (Time_MarshalJSON (Token_Expiry t)) |};
    {| field_name := "Scope"; field_tag := "-";
       field_value := JString (Token_Scope t) |} ].

(** [json.Marshal(token)]. *)
Definition Token_MarshalJSON (t : Token) : JSON :=
  Marshal_struct (Token_fields t).

End TokenJSON.

(** The calls a handler can make on [MovieModel], to run in sequence. *)
Inductive MovieOp : Type :=
| Op_Insert (movie : Movie)
| Op_Get (id : Z)
| Op_Update (movie : Movie)
| Op_Delete (id : Z).

Definition run_op (op : MovieOp) : M unit :=
  match op with
  | Op_Insert movie => _ ← MovieModel_Insert movie; mret tt
  | Op_Get id => _ ← MovieModel_Get id; mret tt
  | Op_Update movie => _ ← MovieModel_Update movie; mret tt
  | Op_Delete id => _ ← MovieModel_Delete id; mret tt
  end.

Fixpoint run_ops (ops : list MovieOp) : M unit :=
  match ops with
  | [] => mret tt
  | op :: rest => _ ← run_op op; run_ops rest
  end.

(** The movie a row stands for. *)
Definition movie_of_row (id : Z) (row : MovieRow) : Movie :=
  {| Movie_ID := id; Movie_CreatedAt := row_created_at row;
     Movie_Title := row_title row; Movie_Year := row_year row;
     Movie_Runtime := row_runtime row; Movie_Genres := row_genres row;
     Movie_Version := row_version row |}.

(** A handler's edit of the movie it read: new domain fields, same id and
    version. *)
Definition edited (title : string) (year runtime : Z) (genres : list string)
    (movie : Movie) : Movie :=
  {| Movie_ID := Movie_ID movie; Movie_CreatedAt := Movie_CreatedAt movie;
     Movie_Title := title; Movie_Year := year; Movie_Runtime := runtime;
     Movie_Genres := genres; Movie_Version := Movie_Version movie |}.



(** Stand-ins for [validator.Unique] and [time.Time.Year] in examples. *)
Definition no_duplicates (l : list string) : bool := bool_decide (NoDup l).
Definition year_2023 (t : Z) : Z := 2023.

(** * Properties *)

Ltac run :=
  unfold mbind, M_bind, mret, M_ret, send, get_db, put_db, time_Now; simpl.

(** ** movies.go: the conditional update *)

Lemma matching_row_Some movie d row :
  matching_row movie d = Some row <->
  movies d !! Movie_ID movie = Some row /\
  row_version row = Movie_Version movie.
Proof.
  unfold matching_row. destruct (movies d !! Movie_ID movie) as [r|] eqn:E.
  - destruct (Z.eqb_spec (row_version r) (Movie_Version movie)); split.
    + intros [= ->]. auto.
    + intros [[= ->] _]. reflexivity.
    + discriminate.
    + intros [[= ->] ?]. contradiction.
  - split; [discriminate | intros [? _]; discriminate].
Qed.

Lemma matching_row_None movie d :
  matching_row movie d = None <->
  movies d !! Movie_ID movie = None \/
  exists row, movies d !! Movie_ID movie = Some row /\
              row_version row <> Movie_Version movie.
Proof.
  unfold matching_row. destruct (movies d !! Movie_ID movie) as [r|] eqn:E.
  - destruct (Z.eqb_spec (row_version r) (Movie_Version movie)); split.
    + discriminate.
    + intros [? | (r' & [= <-] & ?)]; [discriminate | contradiction].
    + intros _. right. eauto.
    + reflexivity.
  - split; auto.
Qed.

(** What [Update] does in each of its three cases. *)
Lemma Update_miss movie w :
  matching_row movie (db w) = None ->
  MovieModel_Update movie w =
    ((movie, Some ErrEditConflict),
     {| db := db w; clock := clock w; entropy := entropy w;
        drawn := drawn w; sent := (sent w ++ [update_stmt movie])%list |}).
Proof.
  unfold matching_row, MovieModel_Update, QueryRow_UpdateMovie. run.
  destruct (movies (db w) !! Movie_ID movie) as [r|]; [|reflexivity].
  destruct (row_version r =? Movie_Version movie); [discriminate|reflexivity].
Qed.

Lemma Update_hit movie w row :
  matching_row movie (db w) = Some row ->
  Movie_Version movie < max_int32 ->
  MovieModel_Update movie w =
    ((set_Movie_Version (Movie_Version movie + 1) movie, None),
     {| db := with_movies
                (<[Movie_ID movie := updated_row movie row]> (movies (db w)))
                (db w);
        clock := clock w; entropy := entropy w;
        drawn := drawn w; sent := (sent w ++ [update_stmt movie])%list |}).
Proof.
  intros [E V]%matching_row_Some Hlt.
  unfold MovieModel_Update, QueryRow_UpdateMovie. run.
  rewrite E, V, Z.eqb_refl.
  destruct (Z.leb_spec (Movie_Version movie + 1) max_int32); [|lia].
  reflexivity.
Qed.

Lemma Update_overflow movie w row :
  matching_row movie (db w) = Some row ->
  max_int32 <= Movie_Version movie ->
  MovieModel_Update movie w =
    ((movie, Some integer_out_of_range),
     {| db := db w; clock := clock w; entropy := entropy w;
        drawn := drawn w; sent := (sent w ++ [update_stmt movie])%list |}).
Proof.
  intros [E V]%matching_row_Some Hge.
  unfold MovieModel_Update, QueryRow_UpdateMovie. run.
  rewrite E, V, Z.eqb_refl.
  destruct (Z.leb_spec (Movie_Version movie + 1) max_int32); [lia|].
  reflexivity.
Qed.

(** C1, as amended.  When the stored version of the movie equals the version
    the caller supplies and that version is below the largest 32-bit
    integer, [Update] succeeds, hands back the supplied version plus 1 in
    the caller's struct, and leaves in the table the row with the supplied
    title, year, runtime and genres at that new version; [created_at] and
    every other row are untouched. *)
Theorem Update_matching_version (movie : Movie) (w : World) (row : MovieRow) :
  movies (db w) !! Movie_ID movie = Some row ->
  row_version row = Movie_Version movie ->
  Movie_Version movie < max_int32 ->
  exists w',
    MovieModel_Update movie w =
      ((set_Movie_Version (Movie_Version movie + 1) movie, None), w') /\
    movies (db w') !! Movie_ID movie =
      Some {| row_created_at := row_created_at row;
              row_title := Movie_Title movie; row_year := Movie_Year movie;
              row_runtime := Movie_Runtime movie;
              row_genres := Movie_Genres movie;
              row_version := Movie_Version movie + 1 |} /\
    (forall id, id <> Movie_ID movie ->
                movies (db w') !! id = movies (db w) !! id) /\
    tokens (db w') = tokens (db w).
Proof.
  intros E V Hlt.
  assert (Hm : matching_row movie (db w) = Some row)
    by (apply matching_row_Some; auto).
  eexists. split; [apply (Update_hit _ _ _ Hm Hlt)|]. simpl.
  split; [apply lookup_insert_eq|].
  split; [|reflexivity].
  intros id Hne. apply lookup_insert_ne. congruence.
Qed.

(** The instance of the spec: from version 5 an update expecting 5 gives 6. *)
Lemma Update_matching_version_witness :
  exists w',
    MovieModel_Update (edit "Casablanca (1942)" 5) (world_of (one_movie 5)) =
      ((edit "Casablanca (1942)" 6, None), w') /\
    movies (db w') !! 1 =
      Some {| row_created_at := 1600000000000000000;
              row_title := "Casablanca (1942)"; row_year := 1942;
              row_runtime := 102; row_genres := ["drama"; "romance"];
              row_version := 6 |} /\
    (forall id, id <> 1 ->
                movies (db w') !! id = movies (one_movie 5) !! id) /\
    tokens (db w') = [].
Proof.
  apply (Update_matching_version (edit "Casablanca (1942)" 5)
           (world_of (one_movie 5)) (casablanca 5)).
  - reflexivity.
  - reflexivity.
  - unfold max_int32. simpl. lia.
Defined.

(** C1, as stated, fails at the top of the 32-bit range: the stored and the
    supplied version are both 2147483647, and [Update] returns the server's
    out-of-range error with the row and the caller's struct unchanged. *)
Lemma Update_at_max_int32 :
  movies (db (world_of (one_movie max_int32)))
    !! Movie_ID (edit "Casablanca" max_int32)
    = Some (casablanca max_int32) /\
  row_version (casablanca max_int32)
    = Movie_Version (edit "Casablanca" max_int32) /\
  fst (MovieModel_Update (edit "Casablanca" max_int32)
         (world_of (one_movie max_int32)))
    = (edit "Casablanca" max_int32, Some integer_out_of_range) /\
  db (snd (MovieModel_Update (edit "Casablanca" max_int32)
             (world_of (one_movie max_int32))))
    = one_movie max_int32 /\
  ~ (exists w',
       MovieModel_Update (edit "Casablanca" max_int32)
         (world_of (one_movie max_int32)) =
       ((set_Movie_Version (Movie_Version (edit "Casablanca" max_int32) + 1)
           (edit "Casablanca" max_int32), None), w')).
Proof.
  repeat split; try reflexivity.
  intros [w' H]. apply (f_equal fst) in H. vm_compute in H. discriminate.
Qed.

(** The scenario of the spec in full: at version 5, an update expecting 5
    gives 6; a second one still expecting 5 is an edit conflict; a third one
    expecting 6 gives 7. *)
Example Update_5_6_7 :
  let w0 := world_of (one_movie 5) in
  let '((m1, e1), w1) := MovieModel_Update (edit "first" 5) w0 in
  let '((m2, e2), w2) := MovieModel_Update (edit "second" 5) w1 in
  let '((m3, e3), w3) := MovieModel_Update (edit "third" 6) w2 in
  (e1, Movie_Version m1) = (None, 6) /\
  (e2, Movie_Version m2) = (Some ErrEditConflict, 5) /\
  (e3, Movie_Version m3) = (None, 7) /\
  (row_title <$> movies (db w3) !! 1) = Some "third" /\
  (row_version <$> movies (db w3) !! 1) = Some 7.
Proof. vm_compute. repeat split; reflexivity. Qed.

(** A movie that is not there and a movie at another version give the same
    error. *)
Example Update_absent_or_stale :
  fst (MovieModel_Update (edit "late" 4) (world_of empty_DB))
    = (edit "late" 4, Some ErrEditConflict) /\
  fst (MovieModel_Update (edit "late" 4) (world_of (one_movie 5)))
    = (edit "late" 4, Some ErrEditConflict).
Proof. split; reflexivity. Qed.

(** C2.  [Update] returns [ErrEditConflict] exactly when no row satisfies
    the condition on id and version, that is when the movie is absent or its
    stored version differs from the supplied one; both cases give the same
    error, the tables and the caller's struct are then unchanged, and in
    every case the call sends its one UPDATE statement and nothing else. *)
Theorem Update_EditConflict_iff (movie : Movie) (w : World) :
  (snd (fst (MovieModel_Update movie w)) = Some ErrEditConflict <->
   (movies (db w) !! Movie_ID movie = None \/
    exists row, movies (db w) !! Movie_ID movie = Some row /\
                row_version row <> Movie_Version movie)) /\
  (snd (fst (MovieModel_Update movie w)) = Some ErrEditConflict ->
   fst (fst (MovieModel_Update movie w)) = movie /\
   db (snd (MovieModel_Update movie w)) = db w) /\
  sent (snd (MovieModel_Update movie w)) = (sent w ++ [update_stmt movie])%list.
Proof.
  rewrite <- matching_row_None.
  destruct (matching_row movie (db w)) as [row|] eqn:Hm.
  - destruct (Z.lt_ge_cases (Movie_Version movie) max_int32) as [Hlt|Hge].
    + rewrite (Update_hit _ _ _ Hm Hlt). simpl.
      repeat split; discriminate.
    + rewrite (Update_overflow _ _ _ Hm Hge). simpl.
      repeat split; discriminate.
  - rewrite (Update_miss _ _ Hm). simpl. repeat split; auto.
Qed.

(** ** movies.go: lookups and deletes *)

Lemma Delete_below_1 id w :
  id < 1 -> MovieModel_Delete id w = (Some ErrRecordNotFound, w).
Proof.
  intros H. unfold MovieModel_Delete.
  destruct (Z.ltb_spec id 1); [reflexivity | lia].
Qed.

Lemma Delete_absent id w :
  1 <= id -> movies (db w) !! id = None ->
  MovieModel_Delete id w =
    (Some ErrRecordNotFound,
     {| db := db w; clock := clock w; entropy := entropy w;
        drawn := drawn w; sent := (sent w ++ [SQL_DeleteMovie id])%list |}).
Proof.
  intros H E. unfold MovieModel_Delete, Exec_DeleteMovie.
  destruct (Z.ltb_spec id 1); [lia|]. run. rewrite E. reflexivity.
Qed.

Lemma Delete_present id w row :
  1 <= id -> movies (db w) !! id = Some row ->
  MovieModel_Delete id w =
    (None,
     {| db := with_movies (delete id (movies (db w))) (db w);
        clock := clock w; entropy := entropy w;
        drawn := drawn w; sent := (sent w ++ [SQL_DeleteMovie id])%list |}).
Proof.
  intros H E. unfold MovieModel_Delete, Exec_DeleteMovie.
  destruct (Z.ltb_spec id 1); [lia|]. run. rewrite E. reflexivity.
Qed.

(** C6.  On a table whose keys came from its sequence, [Delete] looks at the
    id alone: with no row under the id it returns [ErrRecordNotFound] and
    changes nothing; with a row under the id, whatever its version, it
    returns no error and the row is gone, the other rows and the tokens
    staying as they were; it never returns [ErrEditConflict]. *)
Theorem Delete_by_identity (id : Z) (w : World) :
  generated_ids (db w) ->
  fst (MovieModel_Delete id w) <> Some ErrEditConflict /\
  (movies (db w) !! id = None ->
   fst (MovieModel_Delete id w) = Some ErrRecordNotFound /\
   db (snd (MovieModel_Delete id w)) = db w) /\
  (forall row, movies (db w) !! id = Some row ->
   fst (MovieModel_Delete id w) = None /\
   movies (db (snd (MovieModel_Delete id w))) = delete id (movies (db w)) /\
   tokens (db (snd (MovieModel_Delete id w))) = tokens (db w)).
Proof.
  intros [_ Hgen].
  destruct (movies (db w) !! id) as [row|] eqn:E.
  - assert (1 <= id) by (apply (Hgen id row E)).
    rewrite (Delete_present _ _ _ H E). simpl.
    split; [discriminate|]. split; [discriminate|]. auto.
  - split; [|split; [|discriminate]].
    + destruct (Z.lt_ge_cases id 1).
      * rewrite Delete_below_1 by assumption. discriminate.
      * rewrite Delete_absent by assumption. discriminate.
    + intros _. destruct (Z.lt_ge_cases id 1).
      * rewrite Delete_below_1 by assumption. auto.
      * rewrite Delete_absent by assumption. auto.
Qed.

Lemma generated_ids_one_movie v : generated_ids (one_movie v).
Proof.
  split; [simpl; lia|]. intros id row. unfold one_movie. simpl.
  intros [<- _]%lookup_singleton_Some. simpl. lia.
Qed.

Lemma Delete_by_identity_witness :
  fst (MovieModel_Delete 1 (world_of (one_movie 7))) <> Some ErrEditConflict /\
  (movies (one_movie 7) !! 1 = None ->
   fst (MovieModel_Delete 1 (world_of (one_movie 7)))
     = Some ErrRecordNotFound /\
   db (snd (MovieModel_Delete 1 (world_of (one_movie 7)))) = one_movie 7) /\
  (forall row, movies (one_movie 7) !! 1 = Some row ->
   fst (MovieModel_Delete 1 (world_of (one_movie 7))) = None /\
   movies (db (snd (MovieModel_Delete 1 (world_of (one_movie 7)))))
     = delete 1 (movies (one_movie 7)) /\
   tokens (db (snd (MovieModel_Delete 1 (world_of (one_movie 7))))) = []).
Proof.
  apply (Delete_by_identity 1 (world_of (one_movie 7))).
  apply generated_ids_one_movie.
Defined.

(** C10.  For an id below 1, [Get] and [Delete] return [ErrRecordNotFound]
    and leave the world as it was: no statement is sent to the server. *)
Theorem Get_Delete_below_1 (id : Z) (w : World) :
  id < 1 ->
  MovieModel_Get id w = ((None, Some ErrRecordNotFound), w) /\
  MovieModel_Delete id w = (Some ErrRecordNotFound, w).
Proof.
  intros H. split; [|apply Delete_below_1; assumption].
  unfold MovieModel_Get. destruct (Z.ltb_spec id 1); [reflexivity | lia].
Qed.

Lemma Get_Delete_below_1_witness :
  MovieModel_Get 0 (world_of (one_movie 1))
    = ((None, Some ErrRecordNotFound), world_of (one_movie 1)) /\
  MovieModel_Delete 0 (world_of (one_movie 1))
    = (Some ErrRecordNotFound, world_of (one_movie 1)).
Proof. apply (Get_Delete_below_1 0 (world_of (one_movie 1))). lia. Defined.

(** The sequence invariant holds at the start and every operation on
    [movies] keeps it. *)
Lemma generated_ids_empty : generated_ids empty_DB.
Proof. split; [simpl; lia|]. intros id row. simpl. by rewrite lookup_empty. Qed.

Lemma Insert_generated_ids movie w :
  generated_ids (db w) ->
  generated_ids (db (snd (MovieModel_Insert movie w))).
Proof.
  intros [Hseq Hgen]. unfold MovieModel_Insert, QueryRow_InsertMovie. run.
  split; [simpl; lia|]. intros id row. simpl.
  intros [[<- _] | [_ E]]%lookup_insert_Some; [lia|].
  specialize (Hgen id row E). lia.
Qed.

Lemma Update_generated_ids movie w :
  generated_ids (db w) ->
  generated_ids (db (snd (MovieModel_Update movie w))).
Proof.
  intros [Hseq Hgen].
  destruct (matching_row movie (db w)) as [row|] eqn:Hm.
  - destruct (Z.lt_ge_cases (Movie_Version movie) max_int32) as [Hlt|Hge].
    + rewrite (Update_hit _ _ _ Hm Hlt). simpl. split; [assumption|].
      intros id r. simpl.
      intros [[<- _] | [_ E]]%lookup_insert_Some; [|eauto].
      apply matching_row_Some in Hm as [E _]. eauto.
    + rewrite (Update_overflow _ _ _ Hm Hge). split; assumption.
  - rewrite (Update_miss _ _ Hm). split; assumption.
Qed.

Lemma Delete_generated_ids id w :
  generated_ids (db w) ->
  generated_ids (db (snd (MovieModel_Delete id w))).
Proof.
  intros [Hseq Hgen]. destruct (Z.lt_ge_cases id 1).
  - rewrite Delete_below_1 by assumption. split; assumption.
  - destruct (movies (db w) !! id) as [row|] eqn:E.
    + rewrite (Delete_present _ _ _ H E). split; [assumption|].
      intros id' r. simpl. intros [_ E']%lookup_delete_Some. eauto.
    + rewrite Delete_absent by assumption. split; assumption.
Qed.

(** The versions stay within the 32-bit range of their column. *)
Lemma Insert_versions_in_int32 movie w :
  versions_in_int32 (db w) ->
  versions_in_int32 (db (snd (MovieModel_Insert movie w))).
Proof.
  intros Hv. unfold MovieModel_Insert, QueryRow_InsertMovie. run.
  intros id row. simpl.
  intros [[_ <-] | [_ E]]%lookup_insert_Some; [|eauto].
  unfold in_int32, min_int32, max_int32. simpl. lia.
Qed.

Lemma Update_versions_in_int32 movie w :
  versions_in_int32 (db w) ->
  versions_in_int32 (db (snd (MovieModel_Update movie w))).
Proof.
  intros Hv.
  destruct (matching_row movie (db w)) as [row|] eqn:Hm.
  - destruct (Z.lt_ge_cases (Movie_Version movie) max_int32) as [Hlt|Hge].
    + rewrite (Update_hit _ _ _ Hm Hlt). simpl.
      intros id r. simpl.
      intros [[_ <-] | [_ E]]%lookup_insert_Some; [|eauto].
      apply matching_row_Some in Hm as [E V].
      specialize (Hv _ _ E). unfold in_int32 in *. simpl. lia.
    + rewrite (Update_overflow _ _ _ Hm Hge). assumption.
  - rewrite (Update_miss _ _ Hm). assumption.
Qed.

Lemma Delete_versions_in_int32 id w :
  versions_in_int32 (db w) ->
  versions_in_int32 (db (snd (MovieModel_Delete id w))).
Proof.
  intros Hv. destruct (Z.lt_ge_cases id 1).
  - rewrite Delete_below_1 by assumption. assumption.
  - destruct (movies (db w) !! id) as [row|] eqn:E.
    + rewrite (Delete_present _ _ _ H E).
      intros id' r. simpl. intros [_ E']%lookup_delete_Some. eauto.
    + rewrite Delete_absent by assumption. assumption.
Qed.

(** ** tokens.go *)

Lemma length_string_of_list_ascii (l : list ascii) :
  String.length (string_of_list_ascii l) = length l.
Proof. induction l as [|c l IH]; simpl; congruence. Qed.

Lemma rand_Text_length w :
  String.length (fst (rand_Text w)) = 26%nat.
Proof.
  unfold rand_Text, rand_Read, mbind, M_bind, mret, M_ret. cbn [fst].
  rewrite length_string_of_list_ascii, !length_map. reflexivity.
Qed.

Lemma get_string_of_list_ascii (l : list ascii) (i : nat) :
  String.get i (string_of_list_ascii l) = nth_error l i.
Proof.
  revert i. induction l as [|c l IH]; intros [|i]; simpl; auto.
Qed.

Lemma byte_at_base32alphabet (k : nat) :
  (k < 32)%nat ->
  String.get k base32alphabet = Some (byte_at base32alphabet k).
Proof.
  intros Hk. unfold byte_at.
  do 32 (destruct k as [|k]; [reflexivity|]). lia.
Qed.

(** Each character of the text is one of the 32 of the alphabet. *)
Lemma rand_Text_alphabet w (i : nat) (c : ascii) :
  String.get i (fst (rand_Text w)) = Some c ->
  exists k, (k < 32)%nat /\ String.get k base32alphabet = Some c.
Proof.
  unfold rand_Text, rand_Read, mbind, M_bind, mret, M_ret. cbn [fst].
  rewrite get_string_of_list_ascii. intros H.
  apply nth_error_In, in_map_iff in H as (b & <- & _).
  exists (N.to_nat (Byte.to_N b) mod 32)%nat.
  assert ((N.to_nat (Byte.to_N b) mod 32 < 32)%nat)
    by (apply Nat.mod_upper_bound; discriminate).
  split; [assumption|]. apply byte_at_base32alphabet. assumption.
Qed.

Lemma Check_true key message v : Check true key message v = v.
Proof. reflexivity. Qed.

Lemma Check_false_invalid key message v :
  Valid (Check false key message v) = false.
Proof.
  unfold Check, AddError, Valid.
  destruct (Errors v !! key) eqn:E; simpl; apply bool_decide_eq_false.
  - intros H. rewrite H, lookup_empty in E. discriminate.
  - apply insert_non_empty.
Qed.

Lemma Check_false_records key message v :
  is_Some (Errors (Check false key message v) !! key).
Proof.
  unfold Check, AddError. destruct (Errors v !! key) eqn:E; simpl.
  - rewrite E. eauto.
  - rewrite lookup_insert_eq. eauto.
Qed.

(** A check never removes what earlier checks recorded. *)
Lemma Check_keeps ok key message v k :
  is_Some (Errors v !! k) -> is_Some (Errors (Check ok key message v) !! k).
Proof.
  unfold Check, AddError. destruct ok; [auto|].
  destruct (Errors v !! key) eqn:E; [auto|]. simpl. intros Hk.
  destruct (decide (key = k)) as [->|Hne].
  - rewrite lookup_insert_eq. eauto.
  - rewrite lookup_insert_ne; assumption.
Qed.

Lemma Valid_no_error v k : Valid v = true -> Errors v !! k = None.
Proof.
  unfold Valid. intros H%bool_decide_eq_true. rewrite H. apply lookup_empty.
Qed.

Lemma ValidateTokenPlaintext_Valid (tokenPlaintext : string) (v : Validator) :
  Valid (ValidateTokenPlaintext tokenPlaintext v)
  = Valid v && (String.length tokenPlaintext =? 26)%nat.
Proof.
  unfold ValidateTokenPlaintext.
  destruct (Nat.eqb_spec (String.length tokenPlaintext) 26) as [H26|H26].
  - destruct tokenPlaintext; [discriminate|]. simpl.
    by rewrite andb_true_r.
  - rewrite Check_false_invalid. by rewrite andb_false_r.
Qed.

(** [rand.Text] touches nothing but the entropy it consumes. *)
Lemma rand_Text_frame w :
  db (snd (rand_Text w)) = db w /\ clock (snd (rand_Text w)) = clock w /\
  sent (snd (rand_Text w)) = sent w /\
  drawn (snd (rand_Text w)) = (drawn w + 26)%nat.
Proof. repeat split. Qed.

Lemma generateToken_eq Sum256 userID ttl scope w :
  generateToken Sum256 userID ttl scope w =
    ({| Token_Plaintext := fst (rand_Text w);
        Token_Hash := Sum256 (list_byte_of_string (fst (rand_Text w)));
        Token_UserID := userID; Token_Expiry := clock w + ttl;
        Token_Scope := scope |}, snd (rand_Text w)).
Proof. reflexivity. Qed.

Lemma New_eq Sum256 userID ttl scope w :
  let token := fst (generateToken Sum256 userID ttl scope w) in
  TokenModel_New Sum256 userID ttl scope w =
    ((token, None),
     {| db := with_tokens
                (tokens (db w) ++
                 [{| row_hash := Token_Hash token;
                     row_user_id := Token_UserID token;
                     row_expiry := Token_Expiry token;
                     row_scope := Token_Scope token |}]) (db w);
        clock := clock w; entropy := entropy w;
        drawn := (drawn w + 26)%nat;
        sent := sent w ++ [SQL_InsertToken (Token_Hash token)
                             (Token_UserID token) (Token_Expiry token)
                             (Token_Scope token)] |}).
Proof. reflexivity. Qed.

(** C3.  For every user id, ttl and scope, [New] returns a token whose
    plaintext is 26 characters long and whose hash is the SHA-256 digest of
    that plaintext; it returns no error and appends to [tokens] the one row
    that carries this digest, the user id, the expiry now + ttl and the
    scope.  A plaintext passes [ValidateTokenPlaintext] only if it is 26
    bytes long: the validator is valid afterwards exactly when it was valid
    before and the length is 26, so the empty string and every other length
    are rejected. *)
Theorem New_issues_token (Sum256 : list Byte.byte -> list Byte.byte)
    (userID ttl : Z) (scope : string) (w : World)
    (tokenPlaintext : string) (v : Validator) :
  let issued := TokenModel_New Sum256 userID ttl scope w in
  let token := fst (fst issued) in
  String.length (Token_Plaintext token) = 26%nat /\
  Token_Hash token = Sum256 (list_byte_of_string (Token_Plaintext token)) /\
  Token_UserID token = userID /\
  Token_Expiry token = clock w + ttl /\
  Token_Scope token = scope /\
  snd (fst issued) = None /\
  tokens (db (snd issued)) =
    (tokens (db w) ++
     [{| row_hash := Sum256 (list_byte_of_string (Token_Plaintext token));
         row_user_id := userID; row_expiry := clock w + ttl;
         row_scope := scope |}])%list /\
  Valid (ValidateTokenPlaintext (Token_Plaintext token) v) = Valid v /\
  Valid (ValidateTokenPlaintext tokenPlaintext v)
    = Valid v && (String.length tokenPlaintext =? 26)%nat /\
  Valid (ValidateTokenPlaintext "" v) = false.
Proof.
  intros issued token. subst token issued. rewrite New_eq.
  rewrite generateToken_eq. cbn [fst snd db tokens with_tokens Token_Plaintext
    Token_Hash Token_UserID Token_Expiry Token_Scope].
  pose proof (rand_Text_length w) as H26.
  split; [exact H26|]. do 6 (split; [reflexivity|]).
  split; [|split].
  - rewrite ValidateTokenPlaintext_Valid, H26. apply andb_true_r.
  - apply ValidateTokenPlaintext_Valid.
  - rewrite ValidateTokenPlaintext_Valid. apply andb_false_r.
Qed.

(** A run of [New]: the first 26 bytes of the counting entropy give the
    first 26 characters of the alphabet, and the row stored is the one of
    that text. *)
Example New_counting (Sum256 : list Byte.byte -> list Byte.byte) :
  let issued := TokenModel_New Sum256 7 one_day ScopeActivation
                  counting_world in
  Token_Plaintext (fst (fst issued)) = "ABCDEFGHIJKLMNOPQRSTUVWXYZ" /\
  tokens (db (snd issued)) =
    [{| row_hash :=
          Sum256 (list_byte_of_string "ABCDEFGHIJKLMNOPQRSTUVWXYZ");
        row_user_id := 7; row_expiry := 1700086400000000000;
        row_scope := "activation" |}] /\
  drawn (snd issued) = 26%nat.
Proof. repeat split. Qed.

Example ValidateTokenPlaintext_rejects :
  Errors (ValidateTokenPlaintext "" Validator_New)
    = {[ "token" := "must be provided" ]} /\
  Errors (ValidateTokenPlaintext "ABCDEFGH" Validator_New)
    = {[ "token" := "must be 26 bytes long" ]} /\
  Errors (ValidateTokenPlaintext "ABCDEFGHIJKLMNOPQRSTUVWXYZ" Validator_New)
    = ∅.
Proof. repeat split. Qed.

(** C7.  [DeleteAllForUser] keeps exactly the tokens that are not of the
    given scope and user, in their order, so none of that pair remains; it
    returns no error; run a second time it leaves the tables as the first
    run left them; movies, clock and entropy are not touched, and each run
    sends its one DELETE statement. *)
Theorem DeleteAllForUser_idempotent (scope : string) (userID : Z) (w : World) :
  let once := TokenModel_DeleteAllForUser scope userID w in
  let twice := TokenModel_DeleteAllForUser scope userID (snd once) in
  fst once = None /\ fst twice = None /\
  db (snd twice) = db (snd once) /\
  tokens (db (snd once)) =
    List.filter (fun r => negb (token_of scope userID r)) (tokens (db w)) /\
  (forall r, In r (tokens (db (snd once))) ->
             ~ (row_scope r = scope /\ row_user_id r = userID)) /\
  (forall r, In r (tokens (db w)) ->
             ~ (row_scope r = scope /\ row_user_id r = userID) ->
             In r (tokens (db (snd once)))) /\
  movies (db (snd once)) = movies (db w) /\
  movies_id_seq (db (snd once)) = movies_id_seq (db w) /\
  clock (snd once) = clock w /\ drawn (snd once) = drawn w /\
  sent (snd once) = (sent w ++ [SQL_DeleteTokens scope userID])%list.
Proof.
  intros once twice. subst once twice.
  unfold TokenModel_DeleteAllForUser, Exec_DeleteTokens. run.
  assert (Hof : forall r, token_of scope userID r = true <->
                          row_scope r = scope /\ row_user_id r = userID).
  { intros r. unfold token_of. rewrite andb_true_iff.
    rewrite String.eqb_eq, Z.eqb_eq. reflexivity. }
  repeat split.
  - unfold with_tokens. simpl. f_equal.
    induction (tokens (db w)) as [|r l IH]; [reflexivity|]. simpl.
    destruct (token_of scope userID r) eqn:E; simpl; [exact IH|].
    rewrite E. simpl. f_equal. exact IH.
  - intros r [_ Hr]%filter_In Hpair. apply Hof in Hpair.
    rewrite Hpair in Hr. discriminate.
  - intros r Hin Hnot. apply filter_In. split; [assumption|].
    destruct (token_of scope userID r) eqn:E; [|reflexivity].
    apply Hof in E. contradiction.
Qed.

(** ** filters.go *)

Lemma substring_all (s : string) :
  String.substring 0 (String.length s) s = s.
Proof. induction s as [|c s IH]; [reflexivity|]. simpl. f_equal. exact IH. Qed.

Lemma TrimPrefix_hyphen (s : string) : TrimPrefix s "-" = strip_hyphen s.
Proof.
  unfold TrimPrefix, HasPrefix. destruct s as [|c s]; [reflexivity|].
  cbn [String.prefix strip_hyphen].
  destruct (Ascii.ascii_dec "-" c) as [<-|Hne].
  - cbn [String.prefix String.length].
    replace (S (String.length s) - 1)%nat with (String.length s) by lia.
    cbn [String.substring].
    replace (String.prefix "" s) with true by (destruct s; reflexivity).
    apply substring_all.
  - destruct c as [[] [] [] [] [] [] [] []]; try reflexivity.
    contradiction.
Qed.

Lemma sortColumn_range_In sort safelist :
  In sort safelist ->
  sortColumn_range sort safelist = inr (TrimPrefix sort "-").
Proof.
  induction safelist as [|safeValue rest IH]; [contradiction|].
  simpl. destruct (String.eqb_spec sort safeValue); [reflexivity|].
  intros [->|Hin]; [contradiction | auto].
Qed.

Lemma sortColumn_range_not_In sort safelist :
  ~ In sort safelist ->
  sortColumn_range sort safelist
  = inl ("unsafe sort parameter: " ++ sort)%string.
Proof.
  induction safelist as [|safeValue rest IH]; [reflexivity|].
  simpl. intros Hnot. destruct (String.eqb_spec sort safeValue) as [->|Hne].
  - exfalso. auto.
  - apply IH. auto.
Qed.

Lemma PermittedValue_In value permittedValues :
  PermittedValue value permittedValues = true <-> In value permittedValues.
Proof.
  unfold PermittedValue. rewrite existsb_exists. split.
  - intros (x & Hin & ->%String.eqb_eq). exact Hin.
  - intros Hin. exists value. split; [exact Hin | apply String.eqb_refl].
Qed.

Lemma ValidateFilters_permitted f v :
  Valid (ValidateFilters f v) = true -> In (Sort f) (SortSafeList f).
Proof.
  unfold ValidateFilters. intros H. apply PermittedValue_In.
  destruct (PermittedValue (Sort f) (SortSafeList f)); [reflexivity|].
  rewrite Check_false_invalid in H. discriminate.
Qed.

(** C5.  When [Sort] is one of the entries of [SortSafeList], [sortColumn]
    does not panic and returns [Sort] without its leading hyphen.
    [ValidateFilters] leaves the validator valid only for such a [Sort];
    so after a validation that passed [sortColumn] returns, and whenever
    [sortColumn] would panic the validation has recorded an error under
    [sort]. *)
Theorem sortColumn_safe (f : Filters) :
  (In (Sort f) (SortSafeList f) ->
   sortColumn f = inr (TrimPrefix (Sort f) "-") /\
   TrimPrefix (Sort f) "-" = strip_hyphen (Sort f)) /\
  (forall v, Valid (ValidateFilters f v) = true ->
   In (Sort f) (SortSafeList f) /\
   sortColumn f = inr (strip_hyphen (Sort f))) /\
  (forall message, sortColumn f = inl message ->
   forall v, Valid (ValidateFilters f v) = false /\
             is_Some (Errors (ValidateFilters f v) !! "sort")).
Proof.
  split; [|split].
  - intros Hin. split; [|apply TrimPrefix_hyphen].
    apply sortColumn_range_In. exact Hin.
  - intros v Hin%ValidateFilters_permitted. split; [exact Hin|].
    rewrite <- TrimPrefix_hyphen. apply sortColumn_range_In. exact Hin.
  - intros message Hpanic v.
    assert (Hnot : PermittedValue (Sort f) (SortSafeList f) = false).
    { destruct (PermittedValue (Sort f) (SortSafeList f)) eqn:E;
        [|reflexivity].
      apply PermittedValue_In in E. unfold sortColumn in Hpanic.
      rewrite (sortColumn_range_In _ _ E) in Hpanic. discriminate. }
    unfold ValidateFilters. rewrite Hnot.
    split; [apply Check_false_invalid | apply Check_false_records].
Qed.

Lemma sortColumn_safe_witness :
  sortColumn (movie_filters "-year") = inr "year" /\
  Valid (ValidateFilters (movie_filters "-year") Validator_New) = true /\
  (exists message, sortColumn (movie_filters "year; DROP") = inl message) /\
  Valid (ValidateFilters (movie_filters "year; DROP") Validator_New) = false.
Proof.
  destruct (sortColumn_safe (movie_filters "-year")) as (_ & Hvalid & _).
  destruct (sortColumn_safe (movie_filters "year; DROP")) as (_ & _ & Hpanic).
  assert (Hok : Valid (ValidateFilters (movie_filters "-year") Validator_New)
                = true) by reflexivity.
  split; [exact (proj2 (Hvalid Validator_New Hok))|].
  split; [exact Hok|].
  split; [eexists; reflexivity|].
  exact (proj1 (Hpanic _ eq_refl Validator_New)).
Defined.

(** ** users.go: the password hash *)

(** C8, as amended.  [Set] hashes at the cost 12 written in its body: for
    every bcrypt it equals the configurable reading at work factor 12, and
    its result depends on bcrypt's behaviour at cost 12 only. *)
Theorem Set_cost_is_12
    (GenerateFromPassword : list Byte.byte -> Z -> error + list Byte.byte)
    (plaintextPassword : string) (p : password) :
  password_Set GenerateFromPassword plaintextPassword p
  = Set_with_work_factor GenerateFromPassword 12 plaintextPassword p /\
  forall G' : list Byte.byte -> Z -> error + list Byte.byte,
    (forall pw, G' pw 12 = GenerateFromPassword pw 12) ->
    password_Set G' plaintextPassword p
    = password_Set GenerateFromPassword plaintextPassword p.
Proof.
  split; [reflexivity|]. intros G' H12. unfold password_Set.
  rewrite H12. reflexivity.
Qed.

(** C8, as stated, fails: with the work factor configured to 10 the hash
    [Set] stores is still the one of cost 12. *)
Lemma Set_ignores_configured_cost :
  password_Set cost_marker "pa55word" no_password
  <> Set_with_work_factor cost_marker 10 "pa55word" no_password /\
  length (hash (fst (password_Set cost_marker "pa55word" no_password)))
  = 12%nat /\
  length (hash (fst (Set_with_work_factor cost_marker 10 "pa55word"
                       no_password)))
  = 10%nat.
Proof. split; [discriminate | split; reflexivity]. Qed.

(** ** users.go: the JSON surface of [User] *)

(** C9.  Two users that agree on id, creation time, name, email and
    activation have the same JSON encoding whatever their passwords
    (plaintext and hash) and versions are; the members of the encoding are
    id, created_at, name, email and activated and no other. *)
Theorem User_MarshalJSON_hides (Time_MarshalJSON : Z -> string)
    (u1 u2 : User) :
  User_ID u1 = User_ID u2 ->
  User_CreatedAt u1 = User_CreatedAt u2 ->
  User_Name u1 = User_Name u2 ->
  User_Email u1 = User_Email u2 ->
  User_Activated u1 = User_Activated u2 ->
  User_MarshalJSON Time_MarshalJSON u1 = User_MarshalJSON Time_MarshalJSON u2
  /\ keys (User_MarshalJSON Time_MarshalJSON u1)
     = ["id"; "created_at"; "name"; "email"; "activated"].
Proof.
  intros Hid Hcreated Hname Hemail Hactivated.
  unfold User_MarshalJSON, Marshal_struct, User_fields. simpl.
  rewrite Hid, Hcreated, Hname, Hemail, Hactivated. split; reflexivity.
Qed.

Lemma User_MarshalJSON_hides_witness :
  User_MarshalJSON instant_text
    (alice {| plaintext := Some "pa55word";
              hash := list_byte_of_string "$2a$12$abc" |} 1)
  = User_MarshalJSON instant_text (alice no_password 42)
  /\ keys (User_MarshalJSON instant_text
             (alice {| plaintext := Some "pa55word";
                       hash := list_byte_of_string "$2a$12$abc" |} 1))
     = ["id"; "created_at"; "name"; "email"; "activated"].
Proof.
  apply (User_MarshalJSON_hides instant_text
           (alice {| plaintext := Some "pa55word";
                     hash := list_byte_of_string "$2a$12$abc" |} 1)
           (alice no_password 42)); reflexivity.
Defined.

(** ** The rate limiter *)

Lemma Admit_enabled cfg clientKey now buckets :
  enabled cfg = true ->
  let b := default (fresh_bucket cfg now) (buckets !! clientKey) in
  let available := refill cfg now b in
  Admit cfg clientKey now buckets =
    (bool_decide (1 ≤ available)%Qc,
     <[clientKey := {| bucket_tokens :=
                         if bool_decide (1 ≤ available)%Qc
                         then (available - 1)%Qc else available;
                       lastRefill := now |}]> buckets).
Proof.
  intros He b available. unfold Admit. rewrite He. simpl.
  fold b. fold available.
  destruct (bool_decide (1 ≤ available)%Qc); reflexivity.
Qed.

Lemma Admit_all_verdicts cfg clientKey instants buckets :
  enabled cfg = true ->
  fst (Admit_all cfg clientKey instants buckets)
  = verdicts cfg (buckets !! clientKey) instants.
Proof.
  intros He. revert buckets.
  induction instants as [|now rest IH]; intros buckets; [reflexivity|].
  cbn [Admit_all verdicts]. rewrite (Admit_enabled _ _ _ _ He).
  cbv zeta. specialize (IH (<[clientKey :=
    {| bucket_tokens :=
         if bool_decide (1 ≤ refill cfg now
              (default (fresh_bucket cfg now) (buckets !! clientKey)))%Qc
         then (refill cfg now
                 (default (fresh_bucket cfg now) (buckets !! clientKey)) - 1)%Qc
         else refill cfg now
                (default (fresh_bucket cfg now) (buckets !! clientKey));
       lastRefill := now |}]> buckets)).
  rewrite lookup_insert_eq in IH.
  destruct (Admit_all cfg clientKey rest _) as [oks buckets'']. simpl in *.
  rewrite IH. reflexivity.
Qed.

Lemma seconds_0 : seconds 0 = 0%Qc.
Proof. apply Qc_is_canon. reflexivity. Qed.

(** No time elapsed: nothing is added. *)
Lemma refill_same_instant cfg q t :
  refill cfg t {| bucket_tokens := q; lastRefill := t |}
  = Qc_min q (Qc_of_Z (burst cfg)).
Proof.
  unfold refill. simpl. rewrite Z.sub_diag, seconds_0. f_equal. ring.
Qed.

(** Half a second at 2 tokens per second: one token. *)
Lemma refill_half_second q t :
  refill limiter_defaults (t + half_second)
    {| bucket_tokens := q; lastRefill := t |}
  = Qc_min (q + 1)%Qc (Qc_of_Z 4).
Proof.
  unfold refill, half_second. cbn [bucket_tokens lastRefill].
  replace (t + 500000000 - t) with 500000000 by lia.
  assert (H : (seconds 500000000 * rps limiter_defaults = 1)%Qc)
    by (apply Qc_is_canon; reflexivity).
  rewrite H. reflexivity.
Qed.

(** One check, with the numbers worked out beside it. *)
Lemma verdicts_step cfg bucket now rest (available : Qc) (ok : bool)
    (left : Qc) :
  refill cfg now (default (fresh_bucket cfg now) bucket) = available ->
  bool_decide (1 ≤ available)%Qc = ok ->
  (if ok then available - 1 else available)%Qc = left ->
  verdicts cfg bucket (now :: rest)
  = ok :: verdicts cfg
            (Some {| bucket_tokens := left; lastRefill := now |}) rest.
Proof. intros <- <- <-. reflexivity. Qed.

Ltac same_instant :=
  first [ reflexivity
        | unfold fresh_bucket; cbn [default from_option id];
          rewrite refill_same_instant; apply Qc_is_canon; reflexivity
        | apply Qc_is_canon; reflexivity ].

Ltac half_second_later :=
  first [ reflexivity
        | cbn [default from_option id];
          rewrite refill_half_second; apply Qc_is_canon; reflexivity
        | apply Qc_is_canon; reflexivity ].

(** C4.  With the default settings (2 per second, burst 4) a client without
    a bucket is admitted four times at one instant and refused the fifth
    time; half a second later one request is admitted and the next one
    refused.  In general, with the limiter enabled, a check on a client's
    bucket has [min (tokens + elapsed * rps) burst] tokens available,
    admits exactly when that is at least 1, and leaves the bucket with
    [lastRefill] set to now and the available tokens, less one if it
    admitted; the buckets of other clients are not touched. *)
Theorem Admit_token_bucket (clientKey : string) (t0 : Z)
    (buckets : gmap string RateBucket) :
  buckets !! clientKey = None ->
  fst (Admit_all limiter_defaults clientKey
         [t0; t0; t0; t0; t0; t0 + half_second; t0 + half_second] buckets)
  = [true; true; true; true; false; true; false] /\
  forall (cfg : limiter_config) (now : Z) (b : RateBucket)
         (bs : gmap string RateBucket),
    enabled cfg = true ->
    bs !! clientKey = Some b ->
    let available :=
      Qc_min (bucket_tokens b + seconds (now - lastRefill b) * rps cfg)%Qc
             (Qc_of_Z (burst cfg)) in
    (fst (Admit cfg clientKey now bs) = true <-> (1 ≤ available)%Qc) /\
    snd (Admit cfg clientKey now bs) !! clientKey
    = Some {| bucket_tokens :=
                if fst (Admit cfg clientKey now bs)
                then (available - 1)%Qc else available;
              lastRefill := now |} /\
    forall other, other <> clientKey ->
      snd (Admit cfg clientKey now bs) !! other = bs !! other.
Proof.
  intros Hnone. split.
  - rewrite Admit_all_verdicts by reflexivity. rewrite Hnone.
    rewrite (verdicts_step _ _ _ _ (Qc_of_Z 4) true (Qc_of_Z 3));
      [|same_instant..].
    rewrite (verdicts_step _ _ _ _ (Qc_of_Z 3) true (Qc_of_Z 2));
      [|same_instant..].
    rewrite (verdicts_step _ _ _ _ (Qc_of_Z 2) true (Qc_of_Z 1));
      [|same_instant..].
    rewrite (verdicts_step _ _ _ _ (Qc_of_Z 1) true (Qc_of_Z 0));
      [|same_instant..].
    rewrite (verdicts_step _ _ _ _ (Qc_of_Z 0) false (Qc_of_Z 0));
      [|same_instant..].
    rewrite (verdicts_step _ _ _ _ (Qc_of_Z 1) true (Qc_of_Z 0));
      [|half_second_later..].
    rewrite (verdicts_step _ _ _ _ (Qc_of_Z 0) false (Qc_of_Z 0));
      [|same_instant..].
    reflexivity.
  - intros cfg now b bs He Hb available.
    rewrite (Admit_enabled _ _ _ _ He). rewrite Hb. cbn [default fst snd].
    fold (refill cfg now b). unfold refill. fold available.
    split; [apply bool_decide_eq_true|].
    split; [apply lookup_insert_eq|].
    intros other Hne. apply lookup_insert_ne. congruence.
Qed.

Lemma Admit_token_bucket_witness :
  fst (Admit_all limiter_defaults "203.0.113.7"
         [0; 0; 0; 0; 0; 0 + half_second; 0 + half_second] ∅)
  = [true; true; true; true; false; true; false].
Proof.
  apply (Admit_token_bucket "203.0.113.7" 0 ∅). apply lookup_empty.
Defined.

(** * Further properties of the data layer *)

(** ** movies.go: Insert, Get and how the calls compose *)

Lemma Get_below_1 id w :
  id < 1 -> MovieModel_Get id w = ((None, Some ErrRecordNotFound), w).
Proof.
  intros H. unfold MovieModel_Get.
  destruct (Z.ltb_spec id 1); [reflexivity | lia].
Qed.

Lemma Get_present id w row :
  1 <= id -> movies (db w) !! id = Some row ->
  MovieModel_Get id w =
    ((Some (movie_of_row id row), None),
     {| db := db w; clock := clock w; entropy := entropy w;
        drawn := drawn w; sent := sent w ++ [SQL_SelectMovie id] |}).
Proof.
  intros H E. unfold MovieModel_Get, QueryRow_SelectMovie.
  destruct (Z.ltb_spec id 1); [lia|]. run. rewrite E. reflexivity.
Qed.

Lemma Get_absent id w :
  1 <= id -> movies (db w) !! id = None ->
  MovieModel_Get id w =
    ((None, Some ErrRecordNotFound),
     {| db := db w; clock := clock w; entropy := entropy w;
        drawn := drawn w; sent := sent w ++ [SQL_SelectMovie id] |}).
Proof.
  intros H E. unfold MovieModel_Get, QueryRow_SelectMovie.
  destruct (Z.ltb_spec id 1); [lia|]. run. rewrite E. reflexivity.
Qed.

Lemma Get_db id w : db (snd (MovieModel_Get id w)) = db w.
Proof.
  destruct (Z.lt_ge_cases id 1).
  - rewrite Get_below_1 by assumption. reflexivity.
  - destruct (movies (db w) !! id) as [row|] eqn:E.
    + rewrite (Get_present _ _ _ H E). reflexivity.
    + rewrite Get_absent by assumption. reflexivity.
Qed.

Lemma Insert_eq movie w :
  MovieModel_Insert movie w =
    (({| Movie_ID := movies_id_seq (db w); Movie_CreatedAt := clock w;
         Movie_Title := Movie_Title movie; Movie_Year := Movie_Year movie;
         Movie_Runtime := Movie_Runtime movie;
         Movie_Genres := Movie_Genres movie; Movie_Version := 1 |}, None),
     {| db := {| movies :=
                   <[movies_id_seq (db w) :=
                       {| row_created_at := clock w;
                          row_title := Movie_Title movie;
                          row_year := Movie_Year movie;
                          row_runtime := Movie_Runtime movie;
                          row_genres := Movie_Genres movie;
                          row_version := 1 |}]> (movies (db w));
                 movies_id_seq := movies_id_seq (db w) + 1;
                 tokens := tokens (db w) |};
        clock := clock w; entropy := entropy w; drawn := drawn w;
        sent := sent w ++ [SQL_InsertMovie (Movie_Title movie)
                             (Movie_Year movie) (Movie_Runtime movie)
                             (Movie_Genres movie)] |}).
Proof. reflexivity. Qed.

(** X1.  Insert, then Get: on a table whose keys came from its sequence,
    [Insert] returns no error and fills in the caller's struct with the
    next key of the sequence, the clock as creation time and version 1,
    keeping title, year, runtime and genres; a [Get] of that key right
    after returns exactly this struct and no error. *)
Theorem Insert_then_Get (movie : Movie) (w : World) :
  generated_ids (db w) ->
  let inserted := MovieModel_Insert movie w in
  let movie' := fst (fst inserted) in
  snd (fst inserted) = None /\
  Movie_ID movie' = movies_id_seq (db w) /\
  1 <= Movie_ID movie' /\
  Movie_Version movie' = 1 /\
  Movie_CreatedAt movie' = clock w /\
  Movie_Title movie' = Movie_Title movie /\
  Movie_Year movie' = Movie_Year movie /\
  Movie_Runtime movie' = Movie_Runtime movie /\
  Movie_Genres movie' = Movie_Genres movie /\
  fst (MovieModel_Get (Movie_ID movie') (snd inserted))
  = (Some movie', None).
Proof.
  intros [Hseq _] inserted movie'. subst movie' inserted.
  rewrite Insert_eq. cbn [fst snd Movie_ID Movie_Version Movie_CreatedAt
    Movie_Title Movie_Year Movie_Runtime Movie_Genres].
  do 9 (split; [reflexivity || assumption|]).
  rewrite (Get_present _ _
             {| row_created_at := clock w; row_title := Movie_Title movie;
                row_year := Movie_Year movie;
                row_runtime := Movie_Runtime movie;
                row_genres := Movie_Genres movie; row_version := 1 |});
    [reflexivity | assumption |].
  cbn [db movies]. apply lookup_insert_eq.
Qed.

Lemma Insert_then_Get_witness :
  let inserted := MovieModel_Insert (edit "Metropolis" 0)
                    (world_of (one_movie 3)) in
  let movie' := fst (fst inserted) in
  snd (fst inserted) = None /\
  Movie_ID movie' = 2 /\
  1 <= Movie_ID movie' /\
  Movie_Version movie' = 1 /\
  Movie_CreatedAt movie' = 1700000000000000000 /\
  Movie_Title movie' = "Metropolis" /\
  Movie_Year movie' = 1942 /\
  Movie_Runtime movie' = 102 /\
  Movie_Genres movie' = ["drama"; "romance"] /\
  fst (MovieModel_Get (Movie_ID movie') (snd inserted))
  = (Some movie', None).
Proof.
  apply (Insert_then_Get (edit "Metropolis" 0) (world_of (one_movie 3))).
  apply generated_ids_one_movie.
Defined.

(** X2.  On a table whose keys came from its sequence, [Insert] uses a key
    no row had, leaves every other row and the tokens as they were, and the
    next [Insert] gets the key after it: two inserts never share an id. *)
Theorem Insert_fresh_key (movie next : Movie) (w : World) :
  generated_ids (db w) ->
  let inserted := MovieModel_Insert movie w in
  let id := Movie_ID (fst (fst inserted)) in
  movies (db w) !! id = None /\
  (forall id', id' <> id ->
     movies (db (snd inserted)) !! id' = movies (db w) !! id') /\
  tokens (db (snd inserted)) = tokens (db w) /\
  Movie_ID (fst (fst (MovieModel_Insert next (snd inserted)))) = id + 1.
Proof.
  intros [Hseq Hgen] inserted id. subst id inserted.
  rewrite !Insert_eq. cbn [fst snd Movie_ID db movies tokens movies_id_seq].
  split; [|split; [|split; reflexivity]].
  - destruct (movies (db w) !! movies_id_seq (db w)) as [row|] eqn:E;
      [|reflexivity].
    specialize (Hgen _ _ E). lia.
  - intros id' Hne. apply lookup_insert_ne. congruence.
Qed.

Lemma Insert_fresh_key_witness :
  let inserted := MovieModel_Insert (edit "Metropolis" 0)
                    (world_of (one_movie 3)) in
  let id := Movie_ID (fst (fst inserted)) in
  movies (one_movie 3) !! id = None /\
  (forall id', id' <> id ->
     movies (db (snd inserted)) !! id' = movies (one_movie 3) !! id') /\
  tokens (db (snd inserted)) = [] /\
  Movie_ID (fst (fst (MovieModel_Insert (edit "M" 0) (snd inserted))))
  = id + 1.
Proof.
  apply (Insert_fresh_key (edit "Metropolis" 0) (edit "M" 0)
           (world_of (one_movie 3))).
  apply generated_ids_one_movie.
Defined.

Lemma run_op_db_cases op w :
  (exists movie, op = Op_Insert movie /\
     db (snd (run_op op w)) = db (snd (MovieModel_Insert movie w))) \/
  (exists id, op = Op_Get id /\ db (snd (run_op op w)) = db w) \/
  (exists movie, op = Op_Update movie /\
     db (snd (run_op op w)) = db (snd (MovieModel_Update movie w))) \/
  (exists id, op = Op_Delete id /\
     db (snd (run_op op w)) = db (snd (MovieModel_Delete id w))).
Proof.
  destruct op as [movie|id|movie|id]; unfold run_op, mbind, M_bind.
  - left. exists movie. split; [reflexivity|].
    destruct (MovieModel_Insert movie w) as [? ?]. reflexivity.
  - right. left. exists id. split; [reflexivity|].
    rewrite <- (Get_db id w).
    destruct (MovieModel_Get id w) as [? ?]. reflexivity.
  - right. right. left. exists movie. split; [reflexivity|].
    destruct (MovieModel_Update movie w) as [? ?]. reflexivity.
  - right. right. right. exists id. split; [reflexivity|].
    destruct (MovieModel_Delete id w) as [? ?]. reflexivity.
Qed.

Lemma run_op_invariants op w :
  generated_ids (db w) -> versions_in_int32 (db w) ->
  generated_ids (db (snd (run_op op w))) /\
  versions_in_int32 (db (snd (run_op op w))).
Proof.
  intros Hg Hv.
  destruct (run_op_db_cases op w)
    as [(m & _ & ->) | [(id & _ & ->) | [(m & _ & ->) | (id & _ & ->)]]].
  - split; [apply Insert_generated_ids | apply Insert_versions_in_int32];
      assumption.
  - split; assumption.
  - split; [apply Update_generated_ids | apply Update_versions_in_int32];
      assumption.
  - split; [apply Delete_generated_ids | apply Delete_versions_in_int32];
      assumption.
Qed.

(** X3.  Whatever sequence of [Insert], [Get], [Update] and [Delete] calls
    runs on a table whose keys came from its sequence and whose versions fit
    32 bits, the table is again such a table afterwards: every key is at
    least 1 and below the sequence, and every version fits 32 bits. *)
Theorem run_ops_invariants (ops : list MovieOp) (w : World) :
  generated_ids (db w) -> versions_in_int32 (db w) ->
  generated_ids (db (snd (run_ops ops w))) /\
  versions_in_int32 (db (snd (run_ops ops w))).
Proof.
  revert w. induction ops as [|op rest IH]; intros w Hg Hv.
  - split; assumption.
  - cbn [run_ops]. unfold mbind, M_bind.
    destruct (run_op_invariants op w Hg Hv) as [Hg' Hv'].
    destruct (run_op op w) as [[] w1]. simpl in Hg', Hv'.
    apply IH; assumption.
Qed.

Lemma versions_in_int32_one_movie v :
  in_int32 v -> versions_in_int32 (one_movie v).
Proof.
  intros Hv id row. unfold one_movie. simpl.
  intros [_ <-]%lookup_singleton_Some. exact Hv.
Qed.

Lemma run_ops_invariants_witness :
  generated_ids
    (db (snd (run_ops [Op_Insert (edit "Metropolis" 0);
                       Op_Update (edit "Casablanca!" max_int32);
                       Op_Delete 2; Op_Get 1]
                (world_of (one_movie max_int32))))) /\
  versions_in_int32
    (db (snd (run_ops [Op_Insert (edit "Metropolis" 0);
                       Op_Update (edit "Casablanca!" max_int32);
                       Op_Delete 2; Op_Get 1]
                (world_of (one_movie max_int32))))).
Proof.
  apply (run_ops_invariants _ (world_of (one_movie max_int32))).
  - apply generated_ids_one_movie.
  - apply versions_in_int32_one_movie.
    unfold in_int32, min_int32, max_int32. lia.
Defined.

(** X4.  [Get] only reads: the tables are as before.  On a table whose keys
    came from its sequence it returns the stored row under the requested id,
    with that id and no error, when there is one, and [ErrRecordNotFound]
    with no movie when there is none. *)
Theorem Get_returns_stored (id : Z) (w : World) :
  generated_ids (db w) ->
  db (snd (MovieModel_Get id w)) = db w /\
  match movies (db w) !! id with
  | Some row =>
      fst (MovieModel_Get id w)
      = (Some {| Movie_ID := id; Movie_CreatedAt := row_created_at row;
                 Movie_Title := row_title row; Movie_Year := row_year row;
                 Movie_Runtime := row_runtime row;
                 Movie_Genres := row_genres row;
                 Movie_Version := row_version row |}, None)
  | None => fst (MovieModel_Get id w) = (None, Some ErrRecordNotFound)
  end.
Proof.
  intros [_ Hgen]. split; [apply Get_db|].
  destruct (movies (db w) !! id) as [row|] eqn:E.
  - assert (1 <= id) by (apply (Hgen id row E)).
    rewrite (Get_present _ _ _ H E). reflexivity.
  - destruct (Z.lt_ge_cases id 1).
    + rewrite Get_below_1 by assumption. reflexivity.
    + rewrite Get_absent by assumption. reflexivity.
Qed.

Lemma Get_returns_stored_witness :
  db (snd (MovieModel_Get 1 (world_of (one_movie 3)))) = one_movie 3 /\
  match movies (one_movie 3) !! 1 with
  | Some row =>
      fst (MovieModel_Get 1 (world_of (one_movie 3)))
      = (Some {| Movie_ID := 1; Movie_CreatedAt := row_created_at row;
                 Movie_Title := row_title row; Movie_Year := row_year row;
                 Movie_Runtime := row_runtime row;
                 Movie_Genres := row_genres row;
                 Movie_Version := row_version row |}, None)
  | None => fst (MovieModel_Get 1 (world_of (one_movie 3)))
            = (None, Some ErrRecordNotFound)
  end.
Proof.
  apply (Get_returns_stored 1 (world_of (one_movie 3))).
  apply generated_ids_one_movie.
Defined.

(** X5.  Update, then Get: after an [Update] that found its row (id at
    least 1, stored version equal to the supplied one and below the largest
    32-bit integer), [Get] of that id returns the supplied title, year,
    runtime and genres at the supplied version plus 1, with the creation
    time of the stored row, not the one in the caller's struct. *)
Theorem Update_then_Get (movie : Movie) (w : World) (row : MovieRow) :
  1 <= Movie_ID movie ->
  movies (db w) !! Movie_ID movie = Some row ->
  row_version row = Movie_Version movie ->
  Movie_Version movie < max_int32 ->
  fst (MovieModel_Get (Movie_ID movie) (snd (MovieModel_Update movie w)))
  = (Some {| Movie_ID := Movie_ID movie;
             Movie_CreatedAt := row_created_at row;
             Movie_Title := Movie_Title movie;
             Movie_Year := Movie_Year movie;
             Movie_Runtime := Movie_Runtime movie;
             Movie_Genres := Movie_Genres movie;
             Movie_Version := Movie_Version movie + 1 |}, None).
Proof.
  intros Hid E V Hlt.
  assert (Hm : matching_row movie (db w) = Some row)
    by (apply matching_row_Some; auto).
  rewrite (Update_hit _ _ _ Hm Hlt). cbn [snd].
  rewrite (Get_present _ _ (updated_row movie row)); [reflexivity|exact Hid|].
  cbn [db with_movies movies]. apply lookup_insert_eq.
Qed.

Lemma Update_then_Get_witness :
  fst (MovieModel_Get 1
         (snd (MovieModel_Update (edit "Casablanca (1942)" 5)
                 (world_of (one_movie 5)))))
  = (Some {| Movie_ID := 1; Movie_CreatedAt := 1600000000000000000;
             Movie_Title := "Casablanca (1942)"; Movie_Year := 1942;
             Movie_Runtime := 102; Movie_Genres := ["drama"; "romance"];
             Movie_Version := 6 |}, None).
Proof.
  apply (Update_then_Get (edit "Casablanca (1942)" 5)
           (world_of (one_movie 5)) (casablanca 5)).
  - simpl. lia.
  - reflexivity.
  - reflexivity.
  - unfold max_int32. simpl. lia.
Defined.

(** X6.  One winner per version: after an [Update] that succeeded, every
    further [Update] of the same id that still supplies the old version,
    whatever fields it carries, returns [ErrEditConflict] and leaves the
    tables as the first update left them. *)
Theorem Update_once_per_version (movie stale : Movie) (w : World)
    (row : MovieRow) :
  movies (db w) !! Movie_ID movie = Some row ->
  row_version row = Movie_Version movie ->
  Movie_Version movie < max_int32 ->
  Movie_ID stale = Movie_ID movie ->
  Movie_Version stale = Movie_Version movie ->
  let w1 := snd (MovieModel_Update movie w) in
  snd (fst (MovieModel_Update movie w)) = None /\
  fst (MovieModel_Update stale w1) = (stale, Some ErrEditConflict) /\
  db (snd (MovieModel_Update stale w1)) = db w1.
Proof.
  intros E V Hlt Hid Hver w1. subst w1.
  assert (Hm : matching_row movie (db w) = Some row)
    by (apply matching_row_Some; auto).
  rewrite (Update_hit _ _ _ Hm Hlt). cbn [fst snd].
  split; [reflexivity|].
  rewrite Update_miss; [split; reflexivity|].
  apply matching_row_None. right. exists (updated_row movie row).
  cbn [db with_movies movies]. rewrite Hid, Hver.
  split; [apply lookup_insert_eq|]. simpl. lia.
Qed.

Lemma Update_once_per_version_witness :
  let w1 := snd (MovieModel_Update (edit "first" 5)
                   (world_of (one_movie 5))) in
  snd (fst (MovieModel_Update (edit "first" 5) (world_of (one_movie 5))))
  = None /\
  fst (MovieModel_Update (edit "second" 5) w1)
  = (edit "second" 5, Some ErrEditConflict) /\
  db (snd (MovieModel_Update (edit "second" 5) w1)) = db w1.
Proof.
  apply (Update_once_per_version (edit "first" 5) (edit "second" 5)
           (world_of (one_movie 5)) (casablanca 5)).
  - reflexivity.
  - reflexivity.
  - unfold max_int32. simpl. lia.
  - reflexivity.
  - reflexivity.
Defined.

(** X7.  After [Delete] of an id, whatever it returned, [Get] of that id
    returns [ErrRecordNotFound], a second [Delete] returns
    [ErrRecordNotFound] as well and changes nothing more. *)
Theorem Delete_then_not_found (id : Z) (w : World) :
  let w1 := snd (MovieModel_Delete id w) in
  fst (MovieModel_Get id w1) = (None, Some ErrRecordNotFound) /\
  fst (MovieModel_Delete id w1) = Some ErrRecordNotFound /\
  db (snd (MovieModel_Delete id w1)) = db w1.
Proof.
  intros w1. subst w1. destruct (Z.lt_ge_cases id 1) as [Hlt|Hge].
  - rewrite !Delete_below_1, Get_below_1 by assumption. auto.
  - assert (Hgone : movies (db (snd (MovieModel_Delete id w))) !! id = None).
    { destruct (movies (db w) !! id) as [row|] eqn:E.
      - rewrite (Delete_present _ _ _ Hge E). cbn [snd db with_movies movies].
        apply lookup_delete_eq.
      - rewrite (Delete_absent _ _ Hge E). exact E. }
    rewrite (Get_absent _ _ Hge Hgone), (Delete_absent _ _ Hge Hgone). auto.
Qed.

(** X8.  Read, modify, write: when a row of version below the largest
    32-bit integer is stored under an id of at least 1, [Get] returns a
    movie, and an [Update] of that movie with new title, year, runtime and
    genres succeeds and hands back the stored version plus 1. *)
Theorem Get_then_Update (id : Z) (w : World) (row : MovieRow)
    (title : string) (year runtime : Z) (genres : list string) :
  1 <= id ->
  movies (db w) !! id = Some row ->
  row_version row < max_int32 ->
  exists movie,
    fst (MovieModel_Get id w) = (Some movie, None) /\
    Movie_ID movie = id /\ Movie_Version movie = row_version row /\
    fst (MovieModel_Update (edited title year runtime genres movie)
           (snd (MovieModel_Get id w)))
    = ({| Movie_ID := id; Movie_CreatedAt := row_created_at row;
          Movie_Title := title; Movie_Year := year;
          Movie_Runtime := runtime; Movie_Genres := genres;
          Movie_Version := row_version row + 1 |}, None).
Proof.
  intros Hid E Hlt. exists (movie_of_row id row).
  rewrite (Get_present _ _ _ Hid E). cbn [fst snd].
  split; [reflexivity|]. split; [reflexivity|]. split; [reflexivity|].
  rewrite (Update_hit _ _ row); [reflexivity | | exact Hlt].
  apply matching_row_Some. cbn [db]. split; [exact E | reflexivity].
Qed.

Lemma Get_then_Update_witness :
  exists movie,
    fst (MovieModel_Get 1 (world_of (one_movie 5))) = (Some movie, None) /\
    Movie_ID movie = 1 /\ Movie_Version movie = 5 /\
    fst (MovieModel_Update (edited "Casablanca" 1943 103 ["war"] movie)
           (snd (MovieModel_Get 1 (world_of (one_movie 5)))))
    = ({| Movie_ID := 1; Movie_CreatedAt := 1600000000000000000;
          Movie_Title := "Casablanca"; Movie_Year := 1943;
          Movie_Runtime := 103; Movie_Genres := ["war"];
          Movie_Version := 6 |}, None).
Proof.
  apply (Get_then_Update 1 (world_of (one_movie 5)) (casablanca 5)
           "Casablanca" 1943 103 ["war"]).
  - lia.
  - reflexivity.
  - unfold max_int32. simpl. lia.
Defined.

(** X9.  [Update] neither adds nor removes a row, whatever it returns: the
    stored ids are the same, every row keeps its creation time, no version
    goes down and none goes up by more than 1, rows under other ids are
    unchanged, and the tokens and the id sequence are untouched. *)
Theorem Update_frame (movie : Movie) (w : World) :
  let w1 := snd (MovieModel_Update movie w) in
  dom (movies (db w1)) = dom (movies (db w)) /\
  (forall id row, movies (db w) !! id = Some row ->
     exists row', movies (db w1) !! id = Some row' /\
       row_created_at row' = row_created_at row /\
       row_version row <= row_version row' <= row_version row + 1 /\
       (id <> Movie_ID movie -> row' = row)) /\
  tokens (db w1) = tokens (db w) /\
  movies_id_seq (db w1) = movies_id_seq (db w).
Proof.
  intros w1. subst w1.
  assert (Hsame : forall w',
            db w' = db w ->
            dom (movies (db w')) = dom (movies (db w)) /\
            (forall id row, movies (db w) !! id = Some row ->
               exists row', movies (db w') !! id = Some row' /\
                 row_created_at row' = row_created_at row /\
                 row_version row <= row_version row' <= row_version row + 1 /\
                 (id <> Movie_ID movie -> row' = row)) /\
            tokens (db w') = tokens (db w) /\
            movies_id_seq (db w') = movies_id_seq (db w)).
  { intros w' ->. repeat split. intros id row E. exists row.
    repeat split; auto; lia. }
  destruct (matching_row movie (db w)) as [row|] eqn:Hm.
  - destruct (Z.lt_ge_cases (Movie_Version movie) max_int32) as [Hlt|Hge].
    + rewrite (Update_hit _ _ _ Hm Hlt). cbn [snd db with_movies movies
        tokens movies_id_seq].
      apply matching_row_Some in Hm as [E V].
      split; [|split; [|split; reflexivity]].
      * apply dom_insert_lookup_L. rewrite E. eauto.
      * intros id r Er. destruct (decide (id = Movie_ID movie)) as [->|Hne].
        -- rewrite E in Er. injection Er as <-.
           exists (updated_row movie row). rewrite lookup_insert_eq.
           split; [reflexivity|]. split; [reflexivity|].
           split; [simpl; lia | contradiction].
        -- exists r. rewrite lookup_insert_ne by congruence.
           repeat split; auto; lia.
    + rewrite (Update_overflow _ _ _ Hm Hge). apply Hsame. reflexivity.
  - rewrite (Update_miss _ _ Hm). apply Hsame. reflexivity.
Qed.

(** ** filters.go: paging and sorting *)

Lemma Check_Valid ok key message v :
  Valid (Check ok key message v) = Valid v && ok.
Proof.
  destruct ok.
  - rewrite Check_true. by rewrite andb_true_r.
  - rewrite Check_false_invalid. by rewrite andb_false_r.
Qed.

(** X10.  [ValidateFilters] leaves the validator valid exactly when it was
    valid before, the page is between 1 and 10 million, the page size is
    between 1 and 100 and the sort value is one of the safelist. *)
Theorem ValidateFilters_valid_iff (f : Filters) (v : Validator) :
  Valid (ValidateFilters f v) = true <->
  Valid v = true /\
  1 <= Page f <= 10000000 /\
  1 <= PageSize f <= 100 /\
  In (Sort f) (SortSafeList f).
Proof.
  unfold ValidateFilters. rewrite !Check_Valid, !andb_true_iff.
  rewrite PermittedValue_In, !Z.ltb_lt, !Z.leb_le. intuition lia.
Qed.

Lemma wrap_int_small bits z :
  32 <= bits -> - 2 ^ 31 <= z < 2 ^ 31 -> wrap_int bits z = z.
Proof.
  intros Hbits Hz. unfold wrap_int.
  assert (Hhalf : 2 ^ 31 <= 2 ^ (bits - 1))
    by (apply Z.pow_le_mono_r; lia).
  assert (Hfull : 2 ^ bits = 2 * 2 ^ (bits - 1)).
  { replace bits with (Z.succ (bits - 1)) at 1 by lia.
    apply Z.pow_succ_r. lia. }
  rewrite Hfull, Z.mod_small; lia.
Qed.

(** X11.  For filters that passed [ValidateFilters], on a 32-bit or wider
    [int], [offset] is (Page - 1) * PageSize without wrap-around, between 0
    and 999999900, and [limit] is between 1 and 100. *)
Theorem offset_validated (bits : Z) (f : Filters) (v : Validator) :
  32 <= bits ->
  Valid (ValidateFilters f v) = true ->
  offset bits f = (Page f - 1) * PageSize f /\
  0 <= offset bits f <= 999999900 /\
  1 <= limit f <= 100.
Proof.
  intros Hbits (_ & Hpage & Hsize & _)%ValidateFilters_valid_iff.
  unfold offset, limit.
  assert (Hprod : 0 <= (Page f - 1) * PageSize f <= 999999900) by nia.
  rewrite (wrap_int_small bits (Page f - 1)) by lia.
  rewrite wrap_int_small by lia. lia.
Qed.

Lemma offset_validated_witness :
  offset 64 (movie_filters "-year") = (1 - 1) * 20 /\
  0 <= offset 64 (movie_filters "-year") <= 999999900 /\
  1 <= limit (movie_filters "-year") <= 100.
Proof.
  apply (offset_validated 64 (movie_filters "-year") Validator_New).
  - lia.
  - reflexivity.
Defined.

(** Without the validation the offset can be negative, and it can wrap. *)
Example offset_unvalidated :
  offset 64 {| Page := 0; PageSize := 20; Sort := "id";
               SortSafeList := ["id"] |} = -20 /\
  offset 32 {| Page := 2147483647; PageSize := 100; Sort := "id";
               SortSafeList := ["id"] |} = -200.
Proof. split; reflexivity. Qed.

Lemma HasPrefix_hyphen (s : string) :
  HasPrefix s "-" = true <-> exists rest, s = String "-" rest.
Proof.
  unfold HasPrefix. destruct s as [|c s]; cbn [String.prefix].
  - split; [discriminate | intros [? ?]; discriminate].
  - destruct (Ascii.ascii_dec "-" c) as [<-|Hne].
    + split; [eauto|]. intros _. destruct s; reflexivity.
    + split; [discriminate|]. intros [rest H]. injection H as Hc _.
      congruence.
Qed.

(** X12.  For a sort value of the safelist, [sortColumn] and
    [sortDirection] split it without loss: either the direction is DESC and
    the value is a hyphen followed by the column, or the direction is ASC
    and the value is the column, which then does not start with a hyphen. *)
Theorem sort_column_direction (f : Filters) :
  In (Sort f) (SortSafeList f) ->
  exists column,
    sortColumn f = inr column /\
    ((sortDirection f = "DESC" /\ Sort f = String "-" column) \/
     (sortDirection f = "ASC" /\ Sort f = column /\
      HasPrefix column "-" = false)).
Proof.
  intros Hin. exists (strip_hyphen (Sort f)).
  split.
  { unfold sortColumn. rewrite (sortColumn_range_In _ _ Hin).
    f_equal. apply TrimPrefix_hyphen. }
  unfold sortDirection.
  destruct (HasPrefix (Sort f) "-") eqn:E.
  - left. apply HasPrefix_hyphen in E as [rest ->]. auto.
  - right. split; [reflexivity|].
    assert (Hs : strip_hyphen (Sort f) = Sort f).
    { destruct (Sort f) as [|c s]; [reflexivity|].
      destruct (Ascii.ascii_dec "-" c) as [<-|Hne].
      - assert (HasPrefix (String "-" s) "-" = true)
          by (apply HasPrefix_hyphen; eauto).
        congruence.
      - simpl. destruct c as [[] [] [] [] [] [] [] []]; try reflexivity.
        contradiction. }
    rewrite Hs. auto.
Qed.

Lemma sort_column_direction_witness :
  exists column,
    sortColumn (movie_filters "-year") = inr column /\
    ((sortDirection (movie_filters "-year") = "DESC" /\
      "-year" = String "-" column) \/
     (sortDirection (movie_filters "-year") = "ASC" /\ "-year" = column /\
      HasPrefix column "-" = false)).
Proof.
  apply (sort_column_direction (movie_filters "-year")).
  simpl. tauto.
Defined.

(** ** tokens.go: issuing and revoking *)

Lemma filter_app_last {A} (p : A -> bool) (l : list A) (x : A) :
  List.filter p (l ++ [x]) = (List.filter p l ++ if p x then [x] else [])%list.
Proof.
  induction l as [|y l IH]; simpl.
  - destruct (p x); reflexivity.
  - rewrite IH. destruct (p y); reflexivity.
Qed.

Lemma token_of_refl scope userID hash expiry :
  token_of scope userID
    {| row_hash := hash; row_user_id := userID; row_expiry := expiry;
       row_scope := scope |} = true.
Proof. unfold token_of. simpl. by rewrite String.eqb_refl, Z.eqb_refl. Qed.

(** X13.  Issue, then revoke: [DeleteAllForUser] for the scope and user of
    a token that [New] has just stored removes it together with the pair's
    earlier tokens; what is left is what the same revocation would have
    left before the token was issued. *)
Theorem New_then_DeleteAllForUser
    (Sum256 : list Byte.byte -> list Byte.byte)
    (userID ttl : Z) (scope : string) (w : World) :
  let w1 := snd (TokenModel_New Sum256 userID ttl scope w) in
  tokens (db (snd (TokenModel_DeleteAllForUser scope userID w1)))
  = tokens (db (snd (TokenModel_DeleteAllForUser scope userID w))) /\
  forall r, In r (tokens (db (snd (TokenModel_DeleteAllForUser scope userID
                                     w1)))) ->
            row_scope r <> scope \/ row_user_id r <> userID.
Proof.
  intros w1. subst w1. rewrite New_eq, generateToken_eq.
  unfold TokenModel_DeleteAllForUser, Exec_DeleteTokens. run.
  rewrite filter_app_last, token_of_refl. simpl. rewrite app_nil_r.
  split; [reflexivity|].
  intros r [_ Hr]%filter_In. unfold token_of in Hr.
  apply negb_true_iff, andb_false_iff in Hr as [Hr|Hr].
  - left. intros Heq. apply String.eqb_eq in Heq. congruence.
  - right. apply Z.eqb_neq. exact Hr.
Qed.

(** X14.  A revocation for another scope or another user does not touch a
    token that [New] has just stored: its row is still in the table. *)
Theorem New_survives_other_revocation
    (Sum256 : list Byte.byte -> list Byte.byte)
    (userID ttl : Z) (scope : string) (w : World)
    (scope' : string) (userID' : Z) :
  scope' <> scope \/ userID' <> userID ->
  let issued := TokenModel_New Sum256 userID ttl scope w in
  In {| row_hash := Token_Hash (fst (fst issued));
        row_user_id := userID; row_expiry := clock w + ttl;
        row_scope := scope |}
     (tokens (db (snd (TokenModel_DeleteAllForUser scope' userID'
                         (snd issued))))).
Proof.
  intros Hother issued. subst issued. rewrite New_eq, generateToken_eq.
  unfold TokenModel_DeleteAllForUser, Exec_DeleteTokens. run.
  apply filter_In. split; [apply in_or_app; right; left; reflexivity|].
  unfold token_of. simpl. apply negb_true_iff, andb_false_iff.
  destruct Hother as [Hs|Hu].
  - left. apply String.eqb_neq. congruence.
  - right. apply Z.eqb_neq. congruence.
Qed.

Lemma New_survives_other_revocation_witness :
  let issued := TokenModel_New (fun b => b) 7 one_day ScopeAuthentication
                  counting_world in
  In {| row_hash := Token_Hash (fst (fst issued));
        row_user_id := 7; row_expiry := 1700000000000000000 + one_day;
        row_scope := ScopeAuthentication |}
     (tokens (db (snd (TokenModel_DeleteAllForUser ScopeActivation 7
                         (snd issued))))).
Proof.
  apply (New_survives_other_revocation (fun b => b) 7 one_day
           ScopeAuthentication counting_world ScopeActivation 7).
  left. discriminate.
Defined.

(** X15.  The JSON encoding of a [Token] has the members token and expiry
    and no other: two tokens with the same plaintext and expiry encode
    alike whatever their hash, user id and scope. *)
Theorem Token_MarshalJSON_hides (Time_MarshalJSON : Z -> string)
    (t1 t2 : Token) :
  Token_Plaintext t1 = Token_Plaintext t2 ->
  Token_Expiry t1 = Token_Expiry t2 ->
  Token_MarshalJSON Time_MarshalJSON t1 = Token_MarshalJSON Time_MarshalJSON t2
  /\ keys (Token_MarshalJSON Time_MarshalJSON t1) = ["token"; "expiry"].
Proof.
  intros Hp He. unfold Token_MarshalJSON, Marshal_struct, Token_fields.
  simpl. rewrite Hp, He. split; reflexivity.
Qed.

Lemma Token_MarshalJSON_hides_witness :
  Token_MarshalJSON instant_text
    {| Token_Plaintext := "ABCDEFGHIJKLMNOPQRSTUVWXYZ";
       Token_Hash := list_byte_of_string "digest"; Token_UserID := 7;
       Token_Expiry := 1600000000000000000; Token_Scope := "activation" |}
  = Token_MarshalJSON instant_text
      {| Token_Plaintext := "ABCDEFGHIJKLMNOPQRSTUVWXYZ";
         Token_Hash := []; Token_UserID := 8;
         Token_Expiry := 1600000000000000000;
         Token_Scope := "authentication" |}
  /\ keys (Token_MarshalJSON instant_text
             {| Token_Plaintext := "ABCDEFGHIJKLMNOPQRSTUVWXYZ";
                Token_Hash := list_byte_of_string "digest";
                Token_UserID := 7; Token_Expiry := 1600000000000000000;
                Token_Scope := "activation" |})
     = ["token"; "expiry"].
Proof.
  apply (Token_MarshalJSON_hides instant_text
           {| Token_Plaintext := "ABCDEFGHIJKLMNOPQRSTUVWXYZ";
              Token_Hash := list_byte_of_string "digest"; Token_UserID := 7;
              Token_Expiry := 1600000000000000000;
              Token_Scope := "activation" |}
           {| Token_Plaintext := "ABCDEFGHIJKLMNOPQRSTUVWXYZ";
              Token_Hash := []; Token_UserID := 8;
              Token_Expiry := 1600000000000000000;
              Token_Scope := "authentication" |}); reflexivity.
Defined.

(** ** users.go: passwords *)

(** X16.  [ValidatePasswordPlaintext] leaves the validator valid exactly
    when it was valid before and the password is between 8 and 72 bytes
    long; the empty password is among the rejected ones. *)
Theorem ValidatePasswordPlaintext_valid (password : string) (v : Validator) :
  Valid (ValidatePasswordPlaintext password v)
  = Valid v && (8 <=? String.length password)%nat
            && (String.length password <=? 72)%nat /\
  Valid (ValidatePasswordPlaintext "" v) = false.
Proof.
  assert (H : forall pw,
            Valid (ValidatePasswordPlaintext pw v)
            = Valid v && (8 <=? String.length pw)%nat
                      && (String.length pw <=? 72)%nat).
  { intros pw. unfold ValidatePasswordPlaintext. rewrite !Check_Valid.
    destruct pw as [|c pw]; simpl.
    - by rewrite !andb_false_r.
    - by rewrite andb_true_r. }
  split; [apply H|]. rewrite H. simpl. by rewrite andb_false_r.
Qed.




(** ** movies.go: validation *)

(** X18.  [ValidateMovie] changes nothing in the world and leaves the
    validator valid exactly when it was valid before and the title is not
    empty and at most 500 bytes long, the year is from 1888 (included) to
    the current year, the runtime is positive, and there are one to five
    genres that [Unique] accepts. *)
Theorem ValidateMovie_valid_iff (Unique : list string -> bool)
    (Year : Z -> Z) (genres_nil : bool) (movie : Movie) (v : Validator)
    (w : World) :
  (genres_nil = true -> Movie_Genres movie = []) ->
  snd (ValidateMovie Unique Year genres_nil movie v w) = w /\
  (Valid (fst (ValidateMovie Unique Year genres_nil movie v w)) = true <->
   Valid v = true /\
   Movie_Title movie <> "" /\
   (String.length (Movie_Title movie) <= 500)%nat /\
   1888 <= Movie_Year movie <= wrap_int 32 (Year (clock w)) /\
   0 < Movie_Runtime movie /\
   (1 <= length (Movie_Genres movie) <= 5)%nat /\
   Unique (Movie_Genres movie) = true).
Proof.
  intros Hnil. unfold ValidateMovie, mbind, M_bind, mret, M_ret, time_Now.
  cbn [fst snd]. split; [reflexivity|].
  rewrite !Check_Valid, !andb_true_iff, !negb_true_iff.
  rewrite !Z.eqb_neq, !Z.leb_le, !Z.ltb_lt, !Nat.leb_le, String.eqb_neq.
  split.
  - intros Hall. repeat split; try tauto; lia.
  - intros (Hv & Ht & Hlen & Hy & Hr & Hg & Hu).
    repeat split; try assumption; try lia.
    destruct genres_nil; [|reflexivity].
    rewrite Hnil in Hg by reflexivity. simpl in Hg. lia.
Qed.

Lemma ValidateMovie_valid_iff_witness :
  snd (ValidateMovie no_duplicates year_2023 false (edit "Casablanca" 1)
         Validator_New (world_of empty_DB)) = world_of empty_DB /\
  (Valid (fst (ValidateMovie no_duplicates year_2023 false
                 (edit "Casablanca" 1) Validator_New (world_of empty_DB)))
   = true <->
   Valid Validator_New = true /\
   "Casablanca" <> "" /\
   (String.length "Casablanca" <= 500)%nat /\
   1888 <= 1942 <= wrap_int 32 (year_2023 (clock (world_of empty_DB))) /\
   0 < 102 /\
   (1 <= length ["drama"; "romance"] <= 5)%nat /\
   no_duplicates ["drama"; "romance"] = true).
Proof.
  apply (ValidateMovie_valid_iff no_duplicates year_2023 false
           (edit "Casablanca" 1) Validator_New (world_of empty_DB)).
  discriminate.
Defined.

(** The first year of film is accepted although the message of its check
    reads "must be greater than 1888"; a nil and an empty list of genres
    are both refused. *)
Example ValidateMovie_edges :
  Valid (fst (ValidateMovie no_duplicates year_2023 false
                {| Movie_ID := 0; Movie_CreatedAt := 0;
                   Movie_Title := "Roundhay Garden Scene";
                   Movie_Year := 1888; Movie_Runtime := 1;
                   Movie_Genres := ["short"]; Movie_Version := 0 |}
                Validator_New (world_of empty_DB))) = true /\
  Errors (fst (ValidateMovie no_duplicates year_2023 true
                 {| Movie_ID := 0; Movie_CreatedAt := 0;
                    Movie_Title := "Untitled"; Movie_Year := 2000;
                    Movie_Runtime := 90; Movie_Genres := [];
                    Movie_Version := 0 |}
                 Validator_New (world_of empty_DB)))
  = {[ "genres" := "must be provided" ]} /\
  Errors (fst (ValidateMovie no_duplicates year_2023 false
                 {| Movie_ID := 0; Movie_CreatedAt := 0;
                    Movie_Title := "Untitled"; Movie_Year := 2000;
                    Movie_Runtime := 90; Movie_Genres := [];
                    Movie_Version := 0 |}
                 Validator_New (world_of empty_DB)))
  = {[ "genres" := "must contain at least 1 genre" ]}.
Proof. repeat split. Qed.

(** ** movies.go: ids are not handed out twice *)

Lemma Update_seq movie w :
  movies_id_seq (db (snd (MovieModel_Update movie w))) = movies_id_seq (db w).
Proof.
  destruct (matching_row movie (db w)) as [row|] eqn:Hm.
  - destruct (Z.lt_ge_cases (Movie_Version movie) max_int32) as [Hlt|Hge].
    + rewrite (Update_hit _ _ _ Hm Hlt). reflexivity.
    + rewrite (Update_overflow _ _ _ Hm Hge). reflexivity.
  - rewrite (Update_miss _ _ Hm). reflexivity.
Qed.

Lemma Delete_seq id w :
  movies_id_seq (db (snd (MovieModel_Delete id w))) = movies_id_seq (db w).
Proof.
  destruct (Z.lt_ge_cases id 1).
  - rewrite Delete_below_1 by assumption. reflexivity.
  - destruct (movies (db w) !! id) as [row|] eqn:E.
    + rewrite (Delete_present _ _ _ H E). reflexivity.
    + rewrite Delete_absent by assumption. reflexivity.
Qed.

Lemma run_ops_seq ops w :
  movies_id_seq (db w) <= movies_id_seq (db (snd (run_ops ops w))).
Proof.
  revert w. induction ops as [|op rest IH]; intros w; [simpl; lia|].
  cbn [run_ops]. unfold mbind, M_bind.
  assert (Hop : movies_id_seq (db w)
                <= movies_id_seq (db (snd (run_op op w)))).
  { destruct (run_op_db_cases op w)
      as [(m & _ & ->) | [(id & _ & ->) | [(m & _ & ->) | (id & _ & ->)]]].
    - rewrite Insert_eq. simpl. lia.
    - lia.
    - rewrite Update_seq. lia.
    - rewrite Delete_seq. lia. }
  destruct (run_op op w) as [[] w1]. simpl in Hop.
  specialize (IH w1). lia.
Qed.

(** X19.  An id that is in use on a table whose keys came from its sequence
    is never given to a later movie: whatever calls run in between, the
    deletion of that movie included, the next [Insert] returns another
    id. *)
Theorem ids_never_reused (id : Z) (row : MovieRow) (ops : list MovieOp)
    (movie : Movie) (w : World) :
  generated_ids (db w) ->
  movies (db w) !! id = Some row ->
  Movie_ID (fst (fst (MovieModel_Insert movie (snd (run_ops ops w))))) <> id.
Proof.
  intros [_ Hgen] E. rewrite Insert_eq. cbn [fst Movie_ID].
  pose proof (run_ops_seq ops w). specialize (Hgen _ _ E). lia.
Qed.

Lemma ids_never_reused_witness :
  Movie_ID (fst (fst (MovieModel_Insert (edit "Metropolis" 0)
                        (snd (run_ops [Op_Delete 1]
                                (world_of (one_movie 3))))))) <> 1.
Proof.
  apply (ids_never_reused 1 (casablanca 3) [Op_Delete 1]
           (edit "Metropolis" 0) (world_of (one_movie 3))).
  - apply generated_ids_one_movie.
  - reflexivity.
Defined.
